(** * classy-lambda-common: [src/utils/ScriptHelpers.ts]

    A shallow embedding of the script helpers: [runScript] (argument
    handling, stage to AWS profile mapping, construction of the script's
    [Config]), the two data sources that [runScript] declares inline
    ([ScriptEnvironment] and [LocalDBFactories]) and [runPipes] (wiring of a
    stream pipeline, single settlement of the run, setup and teardown
    hooks).

    Side effects are made explicit: every observable call (console output,
    writes to [process.env], stream [pipe] calls, hook calls, [resolve] and
    [reject]) is appended to a trace, in program order. *)

From Stdlib Require Import Ascii String ZArith.
From stdpp Require Import base strings list gmap pretty.

Set Warnings "-register-all".

(** ** JavaScript values *)

Module JS.

(** The values that flow through the helpers.  Numbers are the integers
    (ports); [VRef] is the identity of a heap object that has no JSON
    shape, such as a connection pool. *)
Inductive Value : Type :=
| VUndefined
| VNull
| VBool (b : bool)
| VNum (n : Z)
| VStr (s : string)
| VArr (items : list Value)
| VObj (fields : list (string * Value))
| VRef (address : nat).

(** [new Error(message)]. *)
Record Error : Type := mkError { message : string }.

(** How a call ends: with a value, or by an exception (for an [async]
    function: a fulfilled or a rejected promise). *)
Inductive Result (A : Type) : Type :=
| Normal (a : A)
| Thrown (e : Error).
Arguments Normal {A} a.
Arguments Thrown {A} e.

Definition eqb_string (a b : string) : bool := bool_decide (a = b).

(** [v === undefined]. *)
Definition is_undefined (v : Value) : bool :=
  match v with VUndefined => true | _ => false end.

(** [v == null]: true of [null] and [undefined] only. *)
Definition is_nullish (v : Value) : bool :=
  match v with VUndefined | VNull => true | _ => false end.

(** [v === s] for a string literal [s]. *)
Definition strict_eq_str (v : Value) (s : string) : bool :=
  match v with VStr t => eqb_string t s | _ => false end.

(** Truthiness, as tested by [if (v)] and [!v]. *)
Definition truthy (v : Value) : bool :=
  match v with
  | VUndefined | VNull => false
  | VBool b => b
  | VNum n => negb (n =? 0)%Z
  | VStr s => negb (eqb_string s "")
  | VArr _ | VObj _ | VRef _ => true
  end.

Definition join_comma (parts : list string) : string :=
  match parts with
  | [] => ""
  | p :: ps => fold_left (fun acc q => acc +:+ "," +:+ q) ps p
  end.

(** String conversion, as performed by a template literal. *)
Fixpoint to_string (v : Value) : string :=
  match v with
  | VUndefined => "undefined"
  | VNull => "null"
  | VBool true => "true"
  | VBool false => "false"
  | VNum n => pretty n
  | VStr s => s
  | VArr items =>
      join_comma
        ((fix each (l : list Value) : list string :=
            match l with
            | [] => []
            | x :: r => (if is_nullish x then "" else to_string x) :: each r
            end) items)
  | VObj _ | VRef _ => "[object Object]"
  end.

(** [o[k]] for an own property of a plain object; every other receiver
    has no such property. *)
Fixpoint assoc (k : string) (fields : list (string * Value)) : Value :=
  match fields with
  | [] => VUndefined
  | (k', v) :: rest => if eqb_string k' k then v else assoc k rest
  end.

Definition prop (o : Value) (k : string) : Value :=
  match o with
  | VObj fields => assoc k fields
  | _ => VUndefined
  end.

Definition lower_char (c : ascii) : ascii :=
  let n := nat_of_ascii c in
  if (65 <=? n)%nat && (n <=? 90)%nat then ascii_of_nat (n + 32) else c.

(** [_.toLower] on the ASCII range. *)
Fixpoint toLower (s : string) : string :=
  match s with
  | EmptyString => EmptyString
  | String c r => String (lower_char c) (toLower r)
  end.

Definition newline : string := String (ascii_of_nat 10) EmptyString.

End JS.

Export JS.

(** ** Shared vocabulary of the helpers *)

(** A stream object ([Readable], [Duplex] or [Writable]), known by its
    identity. *)
Definition Stream : Type := nat.

(** [interface Pipeline]: every field is optional. *)
Record Pipeline : Type := mkPipeline {
  source : option Stream;
  transforms : option (list Stream);
  sink : option Stream
}.

(** The [context] object a pipeline run allocates, known by its identity. *)
Definition Context : Type := nat.

(** The [Config] that [runScript] builds.  Its four data sources are fixed
    (ScriptEnvironment, Credstash, Clients, LocalDBFactories); what varies
    is what the ScriptEnvironment source closes over. *)
Record Config : Type := mkConfig {
  cfg_stage : string;
  cfg_dryRun : bool;
  cfg_argv : list string;
  cfg_dir : option string
}.

(** What a promise has become. *)
Inductive Fate : Type :=
| Fulfilled
| RejectedWith (e : Error)
| Pending.

(** Observable calls, in program order. *)
Inductive Event : Type :=
| ConsoleError (text : string)
| ConsoleErrorValue (e : Error)
| SetEnv (name value : string)
| ValidateArgs (args : list string) (dryRun : bool)
| NewConfig (c : Config)
| CallScript (c : Config) (args : list string)
| CallFactory (c : Config) (args : list string) (ctx : Context)
| Pipe (upstream downstream : Stream)
| OnFinish (s : Stream)
| Resolve
| Reject (e : Error)
| CallSetup (c : Config) (args : list string) (ctx : Context) (p : Pipeline)
| CallTeardown (c : Config) (args : list string) (ctx : Context) (p : Pipeline).

#[export] Instance Error_eq_dec : EqDecision Error.
Proof. solve_decision. Defined.

#[export] Instance Pipeline_eq_dec : EqDecision Pipeline.
Proof. solve_decision. Defined.

#[export] Instance Config_eq_dec : EqDecision Config.
Proof. solve_decision. Defined.

#[export] Instance Event_eq_dec : EqDecision Event.
Proof. solve_decision. Defined.

(** ** [runScript] *)

Module Script.

(** [ValidateArgsFunction]: a message, or [undefined]. *)
Definition ValidateArgsFunction : Type := list string -> bool -> option string.

(** [ScriptFunction], by what a call of it does: the calls it makes and the
    fate of the promise it returns. *)
Definition ScriptFunction : Type := Config -> list string -> list Event * Fate.

(** The default validator, [args => undefined]. *)
Definition noValidation : ValidateArgsFunction := fun _ _ => None.

(** The process as [runScript] reads it: [process.argv[0]],
    [process.argv[1]] and [process.env]. *)
Record Process : Type := mkProcess {
  argv0 : string;
  argv1 : string;
  env : gmap string string
}.

(** What [Getopt...parseSystem()] returns: [opt.options.stage],
    [opt.options.dryRun] and the positional [opt.argv]. *)
Record Options : Type := mkOptions {
  opt_stage : option string;
  opt_dryRun : option string;
  opt_argv : list string
}.

(** How the call of [runScript] itself ends. *)
Inductive Completion : Type :=
| Returned
| Threw (e : Error).

(** A call of [runScript]: how it ends, the process environment it leaves
    and the calls it made. *)
Record Outcome : Type := mkOutcome {
  completion : Completion;
  final_env : gmap string string;
  trace : list Event
}.

(** An optional string as a JavaScript value. *)
Definition of_option (o : option string) : Value :=
  match o with Some s => VStr s | None => VUndefined end.

Definition usage (proc : Process) (argDescription : string) : string :=
  "usage: " +:+ argv0 proc +:+ " " +:+ argv1 proc
    +:+ " -s|--stage stage [--d|--dryRun dryRun] " +:+ argDescription.

(** [_.includes(['int', 'staging', 'prod'], argStage)]. *)
Definition valid_stage (s : string) : bool :=
  bool_decide (s ∈ ["int"; "staging"; "prod"]).

(** The [switch (stage)] of lines 41-51: the profile written to
    [process.env['AWS_PROFILE']], if any. *)
Definition aws_profile (stage : string) : option string :=
  if eqb_string stage "int" then Some "classy-test"
  else if eqb_string stage "staging" then Some "classy-test"
  else if eqb_string stage "prod" then Some "prod-pay"
  else None.

Definition set_profile (stage : string) (e : gmap string string)
  : gmap string string * list Event :=
  match aws_profile stage with
  | Some p => (<["AWS_PROFILE" := p]> e, [SetEnv "AWS_PROFILE" p])
  | None => (e, [])
  end.

(** [dryRun] is false only when the option lower-cases to ['false']. *)
Definition parse_dryRun (o : option string) : bool :=
  negb (eqb_string (toLower (default "true" o)) "false").

Definition runScript (f : ScriptFunction) (argDescription : string)
    (argValidator : ValidateArgsFunction) (proc : Process) (opt : Options)
  : Outcome :=
  let argStage := of_option (opt_stage opt) in
  if negb (truthy argStage) then
    mkOutcome Returned (env proc)
      [ConsoleError ("Please specify a stage" +:+ newline
                       +:+ usage proc argDescription)]
  else
    let stage := to_string argStage in
    if negb (valid_stage stage) then
      mkOutcome (Threw (mkError ("Invalid stage " +:+ stage))) (env proc) []
    else
      let '(env1, t1) := set_profile stage (env proc) in
      let dryRun := parse_dryRun (opt_dryRun opt) in
      let t2 := t1 ++ [ValidateArgs (opt_argv opt) dryRun] in
      let validateArgsResult := of_option (argValidator (opt_argv opt) dryRun) in
      if truthy validateArgsResult then
        mkOutcome Returned env1
          (t2 ++ [ConsoleError ("Invalid arguments to script: "
                                  +:+ to_string validateArgsResult +:+ newline
                                  +:+ usage proc argDescription)])
      else
        let config := mkConfig stage dryRun (opt_argv opt) (env1 !! "PWD") in
        let '(calls, fate) := f config (opt_argv opt) in
        mkOutcome Returned env1
          (t2 ++ [NewConfig config; CallScript config (opt_argv opt)]
              ++ calls
              ++ match fate with
                 | RejectedWith e => [ConsoleErrorValue e]
                 | _ => []
                 end).

(** An abort by usage message: the message goes to standard error, the
    call returns normally, no [Config] is built and the script is not
    run. *)
Definition aborts_with_usage (out : Outcome) : Prop :=
  completion out = Returned
  ∧ (∃ text, ConsoleError text ∈ trace out)
  ∧ (∀ c, NewConfig c ∉ trace out)
  ∧ (∀ c a, CallScript c a ∉ trace out).

End Script.

(** ** [runPipes] *)

Module Pipes.

(** What the promise of line 195 has been settled to. *)
Inductive Settlement : Type :=
| Resolved
| Rejected (e : Error).

(** The streams' side of the calls made on them: the exception, if any,
    that [a.pipe(b)] or [s.on('finish', ...)] throws. *)
Record Streams : Type := mkStreams {
  pipe_throws : Stream -> Stream -> option Error;
  on_throws : Stream -> option Error
}.

(** Streams on which no call throws. *)
Definition quiet : Streams := mkStreams (fun _ _ => None) (fun _ => None).

(** The state of one run: the [called] flag of line 196, the promise, the
    stream that carries the 'finish' listener of line 220, whether the
    executor is suspended at [await setup(...)], whether the code after
    [await new Promise(...)] has been resumed, and the calls made so far. *)
Record Run : Type := mkRun {
  called : bool;
  promise : option Settlement;
  listening : option Stream;
  in_setup : bool;
  resumed : bool;
  calls : list Event
}.

Definition start : Run := mkRun false None None false false [].

Definition Exec (A : Type) : Type := Run -> Run * Result A.

Definition ret {A : Type} (a : A) : Exec A := fun r => (r, Normal a).

Definition throw {A : Type} (e : Error) : Exec A := fun r => (r, Thrown e).

Definition bind {A B : Type} (m : Exec A) (k : A -> Exec B) : Exec B :=
  fun r =>
    match m r with
    | (r', Normal a) => k a r'
    | (r', Thrown e) => (r', Thrown e)
    end.

Notation "x <- m ;; k" := (bind m (fun x => k))
  (at level 100, m at next level, right associativity).
Notation "m ;; k" := (bind m (fun _ => k))
  (at level 100, right associativity).

(** [try { m } catch (e) { h e }]. *)
Definition try_catch (m : Exec unit) (h : Error -> Exec unit) : Exec unit :=
  fun r =>
    match m r with
    | (r', Normal a) => (r', Normal a)
    | (r', Thrown e) => h e r'
    end.

Definition emit (ev : Event) : Exec unit :=
  fun r =>
    (mkRun (called r) (promise r) (listening r) (in_setup r) (resumed r)
       (calls r ++ [ev]), Normal tt).

Definition set_called : Exec unit :=
  fun r =>
    (mkRun true (promise r) (listening r) (in_setup r) (resumed r) (calls r),
     Normal tt).

Definition set_listening (s : Stream) : Exec unit :=
  fun r =>
    (mkRun (called r) (promise r) (Some s) (in_setup r) (resumed r) (calls r),
     Normal tt).

Definition set_in_setup (b : bool) : Exec unit :=
  fun r =>
    (mkRun (called r) (promise r) (listening r) b (resumed r) (calls r),
     Normal tt).

(** Settling a promise that is already settled changes nothing. *)
Definition settle (s : Settlement) : Exec unit :=
  fun r =>
    (mkRun (called r)
       (match promise r with Some old => Some old | None => Some s end)
       (listening r) (in_setup r) (resumed r) (calls r), Normal tt).

Definition resolve : Exec unit := emit Resolve;; settle Resolved.

Definition reject (e : Error) : Exec unit := emit (Reject e);; settle (Rejected e).

(** [if (!called) { called = true; k }], the guard of lines 221, 227 and
    234. *)
Definition unless_called (k : Exec unit) : Exec unit :=
  fun r => if called r then (r, Normal tt) else (set_called;; k) r.

(** [for (let i = 0; i < n; i++) body], over the indices it visits. *)
Fixpoint for_each (indices : list nat) (body : nat -> Exec unit) : Exec unit :=
  match indices with
  | [] => ret tt
  | i :: rest => body i;; for_each rest body
  end.

Section Executor.

Variable W : Streams.
Variable config : Config.
Variable args : list string.
Variable context : Context.
Variable pipeline : Pipeline.

(** [a.pipe(b)]. *)
Definition pipe (a b : Stream) : Exec unit :=
  emit (Pipe a b);;
  match pipe_throws W a b with
  | Some e => throw e
  | None => ret tt
  end.

(** [ts[i]]; reading past the end yields [undefined], on which the
    following [pipe] call fails. *)
Definition at_index (ts : list Stream) (i : nat) : Exec Stream :=
  match ts !! i with
  | Some s => ret s
  | None => throw (mkError "TypeError: Cannot read property 'pipe' of undefined")
  end.

(** The body of the loop of lines 201-209. *)
Definition loop_body (ts : list Stream) (i : nat) : Exec unit :=
  if (i =? 0)%nat then
    match source pipeline with
    | Some src => t <- at_index ts i;; pipe src t
    | None => ret tt
    end
  else
    a <- at_index ts (i - 1);; b <- at_index ts i;; pipe a b.

(** Lines 198-218: pipe the stages together and return [finalStream]. *)
Definition wire : Exec (option Stream) :=
  let ts := default [] (transforms pipeline) in
  for_each (seq 0 (length ts)) (loop_body ts);;
  let finalStream :=
    if (0 <? length ts)%nat then ts !! (length ts - 1) else None in
  match sink pipeline with
  | Some snk =>
      (if (0 <? length ts)%nat then
         a <- at_index ts (length ts - 1);; pipe a snk
       else
         match source pipeline with
         | Some src => pipe src snk
         | None => ret tt
         end);;
      ret (Some snk)
  | None => ret finalStream
  end.

(** The listener of lines 220-225. *)
Definition on_finish_listener : Exec unit := unless_called resolve.

(** Lines 219-231. *)
Definition watch (finalStream : option Stream) : Exec unit :=
  match finalStream with
  | Some s =>
      emit (OnFinish s);;
      match on_throws W s with
      | Some e => throw e
      | None => set_listening s
      end
  | None => unless_called resolve
  end.

(** Lines 233-238. *)
Definition catch_block (e : Error) : Exec unit := unless_called (reject e).

(** The executor of line 195 up to the point where it suspends at
    [await setup(...)] (or leaves through its [catch]). *)
Definition executor : Exec unit :=
  try_catch
    (finalStream <- wire;;
     watch finalStream;;
     emit (CallSetup config args context pipeline);;
     set_in_setup true)
    catch_block.

(** What can happen while the run is in flight: a stream emits 'finish',
    or the call of [setup] comes to its end, normally or by an exception
    (thrown at once or as a rejection of the promise it returned). *)
Inductive Signal : Type :=
| Finish (s : Stream)
| SetupReturned
| SetupThrew (e : Error).

Definition deliver (sg : Signal) : Exec unit :=
  fun r =>
    match sg with
    | Finish s =>
        if bool_decide (listening r = Some s) then on_finish_listener r
        else (r, Normal tt)
    | SetupReturned =>
        if in_setup r then set_in_setup false r else (r, Normal tt)
    | SetupThrew e =>
        if in_setup r then (set_in_setup false;; catch_block e) r
        else (r, Normal tt)
    end.

(** Line 240, which runs once the awaited promise is fulfilled; when the
    promise is rejected the [await] throws instead and line 240 is not
    reached. *)
Definition resume (r : Run) : Run :=
  if resumed r then r
  else
    match promise r with
    | Some Resolved =>
        mkRun (called r) (promise r) (listening r) (in_setup r) true
          (calls r ++ [CallTeardown config args context pipeline])
    | Some (Rejected _) =>
        mkRun (called r) (promise r) (listening r) (in_setup r) true (calls r)
    | None => r
    end.

(** One turn of the event loop: run the code, then the continuations that
    have become ready. *)
Definition turn (m : Exec unit) (r : Run) : Run := resume (fst (m r)).

(** The turns taken by a schedule of signals. *)
Definition event_loop (signals : list Signal) (r : Run) : Run :=
  fold_left (fun r sg => turn (deliver sg) r) signals r.

(** Lines 195-240 under a schedule of signals. *)
Definition run_pipeline (signals : list Signal) : Run :=
  event_loop signals (turn executor start).

End Executor.

(** [PipelineFactory], by what the promise it returns becomes. *)
Definition PipelineFactory : Type :=
  Config -> list string -> Context -> Result Pipeline.

(** The behaviour of the hooks and streams during one run. *)
Record Behaviour : Type := mkBehaviour {
  streams : Streams;
  fresh_context : Context;
  signals : list Signal;
  teardown_fate : Fate
}.

(** The script that [runPipes] hands to [runScript] (lines 190-241). *)
Definition pipes_script (factory : PipelineFactory) (B : Behaviour)
  : Script.ScriptFunction :=
  fun config args =>
    let context := fresh_context B in
    match factory config args context with
    | Thrown e => ([CallFactory config args context], RejectedWith e)
    | Normal pipeline =>
        let r := run_pipeline (streams B) config args context pipeline (signals B) in
        (CallFactory config args context :: calls r,
         match promise r with
         | Some Resolved => teardown_fate B
         | Some (Rejected e) => RejectedWith e
         | None => Pending
         end)
    end.

Definition runPipes (factory : PipelineFactory) (B : Behaviour)
    (argDescription : string) (argValidator : Script.ValidateArgsFunction)
  : Script.Process -> Script.Options -> Script.Outcome :=
  Script.runScript (pipes_script factory B) argDescription argValidator.

End Pipes.

(** ** The ScriptEnvironment data source (lines 70-114) *)

Module ScriptEnvironment.

Section Source.

(** lodash's [baseGet(object, path)]: the value at [path] of [object],
    [undefined] when the path does not resolve. *)
Variable baseGet : Value -> string -> Value.

(** lodash's [_.merge(object, source)], by the object it leaves behind. *)
Variable merge : Value -> Value -> Value.

(** The file system: [fs.existsSync], [require] on a JSON file and
    [yamljs.load]. *)
Variable existsSync : string -> bool.
Variable require : string -> Result Value.
Variable yaml_load : string -> Result Value.

(** [_.get(object, path, defaultValue)]. *)
Definition lodash_get (object : Value) (path : string) (defaultValue : Value)
  : Value :=
  let result := if is_nullish object then VUndefined else baseGet object path in
  if is_undefined result then defaultValue else result.

(** The source closes over [stage], [dryRun], [opt.argv] and
    [process.env.PWD], all held by the [Config] record; its own state is the
    [environment] field, [undefined] until [initialize] has run. *)
Definition State : Type := option Value.

Definition dir (c : Config) : Value := Script.of_option (cfg_dir c).

Definition load (read : string -> Result Value) (file stage : string)
    (environment : Value) : Result Value :=
  if existsSync file then
    match read file with
    | Normal environments =>
        if truthy environments
        then Normal (merge environment (prop environments stage))
        else Normal environment
    | Thrown e => Thrown e
    end
  else Normal environment.

Definition initialize (c : Config) (st : State) : State * Result unit :=
  let environment := VObj [] in
  let envJSONFile := to_string (dir c) +:+ "/environment.json" in
  match load require envJSONFile (cfg_stage c) environment with
  | Thrown e => (st, Thrown e)
  | Normal environment1 =>
      let envYAMLFile := to_string (dir c) +:+ "/env.yml" in
      match load yaml_load envYAMLFile (cfg_stage c) environment1 with
      | Thrown e => (st, Thrown e)
      | Normal environment2 => (Some environment2, Normal tt)
      end
  end.

Definition get (c : Config) (st : State) (key : string) : Value :=
  if eqb_string key "stage" then VStr (cfg_stage c)
  else if eqb_string key "dryRun" then VBool (cfg_dryRun c)
  else if eqb_string key "args" then VArr (map VStr (cfg_argv c))
  else if eqb_string key "dir" then dir c
  else lodash_get (default VUndefined st) key VNull.

Definition name : string := "ScriptEnvironment".

End Source.

(** The reserved keys of [get]. *)
Definition reserved (key : string) : bool :=
  bool_decide (key ∈ ["stage"; "dryRun"; "args"; "dir"]).

(** A resolver for flat environments: own properties only. *)
Definition own_property : Value -> string -> Value := prop.

(** A merge for flat environments: the fields of [source] go in front of
    those of [object], so that they win. *)
Definition merge_fields (object source : Value) : Value :=
  match object, source with
  | VObj a, VObj b => VObj (b ++ a)
  | _, _ => object
  end.

End ScriptEnvironment.

(** ** The LocalDBFactories data source (lines 117-156) *)

Module LocalDBFactories.

(** The fields [port], [user] and [password], [undefined] until
    [initialize] has set them. *)
Record State : Type := mkState {
  port : Value;
  user : Value;
  password : Value
}.

Definition fresh : State := mkState VUndefined VUndefined VUndefined.

(** The options object given to [mysql.createPool]. *)
Record PoolOptions : Type := mkPoolOptions {
  connectionLimit : Z;
  host : string;
  pool_user : Value;
  pool_password : Value;
  database : string;
  pool_port : Value
}.

(** The pools created so far; a pool's identity is its position. *)
Definition Heap : Type := list PoolOptions.

Section Source.

(** [config.get], the lookup of the [Config] under initialisation. *)
Variable config_get : string -> Result Value.

Definition initialize (st : State) : State * Result unit :=
  match config_get "stage" with
  | Thrown e => (st, Thrown e)
  | Normal stage =>
      let port :=
        if strict_eq_str stage "prod" then VNum 9306
        else if strict_eq_str stage "staging" then VNum 8306
        else VUndefined in
      if is_undefined port then
        match config_get "stage" with
        | Thrown e => (st, Thrown e)
        | Normal stage' =>
            (st, Thrown (mkError ("No port for stage " +:+ to_string stage')))
        end
      else
        let st1 := mkState port (user st) (password st) in
        match config_get "CLASSY_DB_USERNAME" with
        | Thrown e => (st1, Thrown e)
        | Normal u =>
            let st2 := mkState port u (password st) in
            match config_get "CLASSY_DB_PASSWORD" with
            | Thrown e => (st2, Thrown e)
            | Normal p => (mkState port u p, Normal tt)
            end
        end
  end.

End Source.

(** [get] creates a pool on every call that asks for ['stayClassyDB']. *)
Definition get (st : State) (key : string) (h : Heap) : Heap * Value :=
  if eqb_string key "stayClassyDB" then
    let db := mkPoolOptions 25 "127.0.0.1" (user st) (password st)
                "stayclassy" (port st) in
    (h ++ [db], VRef (length h))
  else (h, VUndefined).

Definition name : string := "LocalDBFactories".

(** A lookup that creates nothing and answers a repeated call with the
    same value. *)
Definition pure_lookup (st : State) (key : string) : Prop :=
  ∀ h, fst (get st key h) = h
       ∧ snd (get st key (fst (get st key h))) = snd (get st key h).

End LocalDBFactories.

(** ** The [Config] lookup *)

Module ConfigLookup.

Section Lookup.

(** Which answers of a source count as defined. *)
Variable defined : Value -> bool.

(** Modelled from the spec: [Config.get] of [src/Config], which is not
    among the sources at hand.  It asks the data sources in order and
    returns the first defined answer, [undefined] when no source has one. *)
Fixpoint config_get (sources : list (string -> Result Value)) (key : string)
  : Result Value :=
  match sources with
  | [] => Normal VUndefined
  | get :: rest =>
      match get key with
      | Thrown e => Thrown e
      | Normal v => if defined v then Normal v else config_get rest key
      end
  end.

End Lookup.

(** The reading of "defined" as [!== undefined]. *)
Definition not_undefined (v : Value) : bool := negb (is_undefined v).

End ConfigLookup.

(** ** Reading a run of [runPipes] *)

Module PipesSpec.

Import Pipes.

Definition option_list {A : Type} (o : option A) : list A :=
  match o with Some a => [a] | None => [] end.

(** The stages that are present, in order:
    [[source, ...transforms, sink]]. *)
Definition stages (p : Pipeline) : list Stream :=
  option_list (source p) ++ default [] (transforms p) ++ option_list (sink p).

(** Each stage with the one after it. *)
Fixpoint adjacent (l : list Stream) : list (Stream * Stream) :=
  match l with
  | a :: (b :: _) as rest => (a, b) :: adjacent rest
  | _ => []
  end.

(** The stream the completion listener goes on: the sink, else the last
    transform, else none. *)
Definition terminal (p : Pipeline) : option Stream :=
  match sink p with
  | Some snk => Some snk
  | None => last (default [] (transforms p))
  end.

(** The terminal stage in the spec's words: the sink, else the last
    transform, else the source, else none. *)
Definition terminal_in_spec (p : Pipeline) : option Stream :=
  match sink p with
  | Some snk => Some snk
  | None =>
      match last (default [] (transforms p)) with
      | Some t => Some t
      | None => source p
      end
  end.

(** The [pipe] calls of a trace. *)
Fixpoint pipes_in (l : list Event) : list (Stream * Stream) :=
  match l with
  | [] => []
  | Pipe a b :: rest => (a, b) :: pipes_in rest
  | _ :: rest => pipes_in rest
  end.

Definition is_setup (ev : Event) : bool :=
  match ev with CallSetup _ _ _ _ => true | _ => false end.

Definition is_teardown (ev : Event) : bool :=
  match ev with CallTeardown _ _ _ _ => true | _ => false end.


Definition count (f : Event -> bool) (l : list Event) : nat :=
  length (List.filter f l).

(** The [pipe] calls attempted, up to the first that throws, and the
    exception. *)
Fixpoint pipe_trace (W : Streams) (l : list (Stream * Stream))
  : list Event * option Error :=
  match l with
  | [] => ([], None)
  | (a, b) :: rest =>
      match pipe_throws W a b with
      | Some e => ([Pipe a b], Some e)
      | None =>
          let '(t, o) := pipe_trace W rest in (Pipe a b :: t, o)
      end
  end.

(** The exception that wiring and listener registration end with, if
    any. *)
Definition wiring_error (W : Streams) (p : Pipeline) : option Error :=
  match snd (pipe_trace W (adjacent (stages p))) with
  | Some e => Some e
  | None =>
      match terminal p with
      | Some s => on_throws W s
      | None => None
      end
  end.

(** The calls made by wiring and listener registration. *)
Definition wiring_calls (W : Streams) (p : Pipeline) : list Event :=
  let '(t, o) := pipe_trace W (adjacent (stages p)) in
  match o, terminal p with
  | None, Some s => t ++ [OnFinish s]
  | _, _ => t
  end.

(** How many times the schedule lets the [setup] call end. *)
Definition ends_setup (sg : Signal) : bool :=
  match sg with Finish _ => false | _ => true end.

Definition setup_ends (sigs : list Signal) : nat :=
  length (List.filter ends_setup sigs).

(** The outcome in the claim's words: whichever comes first of a 'finish'
    of the terminal stage and an error of the setup hook. *)
Fixpoint first_signal (term : option Stream) (sigs : list Signal)
  : option Settlement :=
  match sigs with
  | [] => None
  | Finish s :: rest =>
      if bool_decide (term = Some s) then Some Resolved
      else first_signal term rest
  | SetupReturned :: rest => first_signal term rest
  | SetupThrew e :: _ => Some (Rejected e)
  end.

(** The same, as the run computes it: an end of [setup] counts only while
    the executor is suspended in it. *)
Fixpoint first_effective (waiting : bool) (s : Stream) (sigs : list Signal)
  : option Settlement :=
  match sigs with
  | [] => None
  | Finish x :: rest =>
      if bool_decide (Some s = Some x) then Some Resolved
      else first_effective waiting s rest
  | SetupReturned :: rest => first_effective false s rest
  | SetupThrew e :: rest =>
      if waiting then Some (Rejected e) else first_effective waiting s rest
  end.

(** The calls that a settlement adds to the trace. *)
Definition late_calls (config : Config) (args : list string) (ctx : Context)
    (p : Pipeline) (o : option Settlement) : list Event :=
  match o with
  | None => []
  | Some Resolved => [Resolve; CallTeardown config args ctx p]
  | Some (Rejected e) => [Reject e]
  end.

(** The run state with more calls in its trace. *)
Definition with_calls (r : Run) (evs : list Event) : Run :=
  mkRun (called r) (promise r) (listening r) (in_setup r) (resumed r)
    (calls r ++ evs).

(** [pipe] calls in a row, stopping at the first that throws. *)
Fixpoint pipe_all (W : Streams) (l : list (Stream * Stream)) : Exec unit :=
  match l with
  | [] => ret tt
  | (a, b) :: rest => bind (pipe W a b) (fun _ => pipe_all W rest)
  end.

(** The state in which the first turn of a run ends. *)
Definition first_turn (W : Streams) (config : Config) (args : list string)
    (ctx : Context) (p : Pipeline) : Run :=
  match wiring_error W p with
  | Some e =>
      mkRun true (Some (Rejected e)) None false true
        (wiring_calls W p ++ [Reject e])
  | None =>
      match terminal p with
      | Some s =>
          mkRun false None (Some s) true false
            (wiring_calls W p ++ [CallSetup config args ctx p])
      | None =>
          mkRun true (Some Resolved) None true true
            (wiring_calls W p
               ++ [Resolve; CallSetup config args ctx p;
                   CallTeardown config args ctx p])
      end
  end.

(** What a run settles to. *)
Definition outcome (W : Streams) (p : Pipeline) (sigs : list Signal)
  : option Settlement :=
  match wiring_error W p with
  | Some e => Some (Rejected e)
  | None =>
      match terminal p with
      | Some s => first_effective true s sigs
      | None => Some Resolved
      end
  end.

(** The calls that wiring and listener registration can make. *)
Definition is_wiring (ev : Event) : bool :=
  match ev with Pipe _ _ | OnFinish _ => true | _ => false end.

(** The calls of a run. *)
Definition expected_calls (W : Streams) (config : Config) (args : list string)
    (ctx : Context) (p : Pipeline) (sigs : list Signal) : list Event :=
  match wiring_error W p with
  | Some e => wiring_calls W p ++ [Reject e]
  | None =>
      match terminal p with
      | Some s =>
          (wiring_calls W p ++ [CallSetup config args ctx p])
            ++ late_calls config args ctx p (first_effective true s sigs)
      | None =>
          wiring_calls W p
            ++ [Resolve; CallSetup config args ctx p;
                CallTeardown config args ctx p]
      end
  end.

(** The statement of C4: the run is complete as soon as the first turn is
    over, and teardown has run. *)
Definition completes_immediately (first : Run) : Prop :=
  promise first = Some Resolved ∧ count is_teardown (calls first) = 1.

(** The statement of C1: once the run is settled, either way, teardown has
    been called exactly once. *)
Definition teardown_whenever_settled (r : Run) : Prop :=
  promise r ≠ None → count is_teardown (calls r) = 1.

End PipesSpec.

(** ** Reading the rest of the helpers *)

Module Reading.

Import Script Pipes PipesSpec.

(** The three guards of [runScript] (lines 28, 36 and 61): the stage is
    given, it is one of the three stages, and the validator has no
    message. *)
Definition accepts (v : ValidateArgsFunction) (opt : Options) : bool :=
  truthy (of_option (opt_stage opt))
  && valid_stage (to_string (of_option (opt_stage opt)))
  && negb (truthy (of_option (v (opt_argv opt) (parse_dryRun (opt_dryRun opt))))).

(** What [console.error(e)] of line 162 adds to the trace. *)
Definition report (fate : Fate) : list Event :=
  match fate with
  | RejectedWith e => [ConsoleErrorValue e]
  | _ => []
  end.

(** [LocalDBFactories.get] called for each key in turn, each call on the
    pools that the calls before it have left. *)
Fixpoint get_all (st : LocalDBFactories.State) (keys : list string)
    (h : LocalDBFactories.Heap) : LocalDBFactories.Heap * list Value :=
  match keys with
  | [] => (h, [])
  | key :: rest =>
      let '(h1, v) := LocalDBFactories.get st key h in
      let '(h2, vs) := get_all st rest h1 in
      (h2, v :: vs)
  end.

Definition asks_for_pool (key : string) : bool := eqb_string key "stayClassyDB".

(** A 'finish' of a stream that does not carry the listener. *)
Definition foreign_finish (term : option Stream) (sg : Signal) : bool :=
  match sg with
  | Finish x => negb (bool_decide (term = Some x))
  | _ => false
  end.

Definition setup_throws (sg : Signal) : bool :=
  match sg with SetupThrew _ => true | _ => false end.

Definition finish_of (s : Stream) (sg : Signal) : bool :=
  match sg with Finish x => bool_decide (Some s = Some x) | _ => false end.

(** The fate of the script of [runPipes], read off the run. *)
Definition script_fate (o : option Settlement) (teardown : Fate) : Fate :=
  match o with
  | Some Resolved => teardown
  | Some (Rejected e) => RejectedWith e
  | None => Pending
  end.

(** What [ScriptEnvironment.initialize] takes from a file that exists: the
    section of the stage when the file's content is truthy, nothing when
    it is falsy, or the exception of the read. *)
Definition section_of (read : string -> Result Value) (file stage : string)
  : Result (option Value) :=
  match read file with
  | Normal environments =>
      Normal (if truthy environments then Some (prop environments stage)
              else None)
  | Thrown e => Thrown e
  end.

(** The two files that [ScriptEnvironment.initialize] looks for. *)
Definition envJSONFile (c : Config) : string :=
  to_string (ScriptEnvironment.dir c) +:+ "/environment.json".

Definition envYAMLFile (c : Config) : string :=
  to_string (ScriptEnvironment.dir c) +:+ "/env.yml".

(** The addresses among the answers of [LocalDBFactories.get]. *)
Fixpoint addresses (vs : list Value) : list nat :=
  match vs with
  | [] => []
  | VRef a :: rest => a :: addresses rest
  | _ :: rest => addresses rest
  end.

(** The pool that [LocalDBFactories.get] builds from a state. *)
Definition pool_of (st : LocalDBFactories.State) : LocalDBFactories.PoolOptions :=
  LocalDBFactories.mkPoolOptions 25 "127.0.0.1" (LocalDBFactories.user st)
    (LocalDBFactories.password st) "stayclassy" (LocalDBFactories.port st).

(** What [Getopt.create(...).parseSystem()] of lines 22-25 does with the
    command line, before anything else in [runScript]: it returns the
    options, or (for a command line it cannot parse, such as [-s] with no
    value after it) it reports the error itself and ends the process.
    node-getopt is not among the sources: its report and exit status are
    taken as they come. *)
Inductive Parse : Type :=
| Parsed (opt : Options)
| ParserExit (report : string) (status : Z).

(** How a call of [runScript] on a command line ends: the call comes to
    its end, or the process has been ended by the parser. *)
Inductive SystemRun : Type :=
| Finished (out : Outcome)
| ProcessExit (report : string) (status : Z).

(** [runScript] from line 22 on. *)
Definition runScript_system (f : ScriptFunction) (argDescription : string)
    (argValidator : ValidateArgsFunction) (proc : Process) (parse : Parse)
  : SystemRun :=
  match parse with
  | ParserExit report status => ProcessExit report status
  | Parsed opt => Finished (runScript f argDescription argValidator proc opt)
  end.

(** The callbacks of [runScript] when they may throw: the validator
    returns its result or throws; the script makes its calls and then
    returns its promise or throws. *)
Definition ThrowingValidator : Type :=
  list string -> bool -> Result (option string).

Definition ThrowingScript : Type :=
  Config -> list string -> list Event * Result Fate.

(** Lines 27-163 with such callbacks: neither line 60 nor line 160 is
    inside a [try], so an exception of the validator or of the script
    function leaves [runScript] as it is. *)
Definition runScript_with (f : ThrowingScript) (argDescription : string)
    (argValidator : ThrowingValidator) (proc : Process) (opt : Options)
  : Outcome :=
  let argStage := of_option (opt_stage opt) in
  if negb (truthy argStage) then
    mkOutcome Returned (env proc)
      [ConsoleError ("Please specify a stage" +:+ newline
                       +:+ usage proc argDescription)]
  else
    let stage := to_string argStage in
    if negb (valid_stage stage) then
      mkOutcome (Threw (mkError ("Invalid stage " +:+ stage))) (env proc) []
    else
      let '(env1, t1) := set_profile stage (env proc) in
      let dryRun := parse_dryRun (opt_dryRun opt) in
      let t2 := t1 ++ [ValidateArgs (opt_argv opt) dryRun] in
      match argValidator (opt_argv opt) dryRun with
      | Thrown e => mkOutcome (Threw e) env1 t2
      | Normal result =>
          let validateArgsResult := of_option result in
          if truthy validateArgsResult then
            mkOutcome Returned env1
              (t2 ++ [ConsoleError ("Invalid arguments to script: "
                                      +:+ to_string validateArgsResult
                                      +:+ newline
                                      +:+ usage proc argDescription)])
          else
            let config := mkConfig stage dryRun (opt_argv opt) (env1 !! "PWD") in
            match f config (opt_argv opt) with
            | (calls, Thrown e) =>
                mkOutcome (Threw e) env1
                  (t2 ++ [NewConfig config; CallScript config (opt_argv opt)]
                      ++ calls)
            | (calls, Normal fate) =>
                mkOutcome Returned env1
                  (t2 ++ [NewConfig config; CallScript config (opt_argv opt)]
                      ++ calls ++ report fate)
            end
      end.

(** Callbacks that do not throw, as throwing callbacks. *)
Definition returning_validator (v : ValidateArgsFunction) : ThrowingValidator :=
  fun args dryRun => Normal (v args dryRun).

Definition returning_script (f : ScriptFunction) : ThrowingScript :=
  fun config args => (fst (f config args), Normal (snd (f config args))).

(** A key cut at its dots. *)
Fixpoint split_dots (current key : string) : list string :=
  match key with
  | EmptyString => [current]
  | String c rest =>
      if bool_decide (c = "."%char) then current :: split_dots "" rest
      else split_dots (current +:+ String c "") rest
  end.

(** A path followed into nested objects. *)
Fixpoint follow (path : list string) (object : Value) : Value :=
  match path with
  | [] => object
  | key :: rest => follow rest (prop object key)
  end.

(** A resolver for nested environments, after lodash's [baseGet] on a
    string: a key that the object has itself is read directly; any other
    key is cut at its dots and followed into the nested objects.  Bracket
    syntax and inherited properties are left out. *)
Definition dotted_path (object : Value) (key : string) : Value :=
  if is_undefined (prop object key) then follow (split_dots "" key) object
  else prop object key.

End Reading.

(** * Properties *)

(** ** [runScript] *)

Module ScriptFacts.

Import Script.

Lemma stage_cases (s : string) :
  s ∈ ["int"; "staging"; "prod"] → s = "int" ∨ s = "staging" ∨ s = "prod".
Proof. rewrite !elem_of_cons, elem_of_nil. tauto. Qed.

Lemma truthy_nonempty (s : string) : s ≠ "" → truthy (VStr s) = true.
Proof.
  intros Hs. simpl. unfold eqb_string. by rewrite bool_decide_eq_false_2.
Qed.

Ltac not_in_trace :=
  repeat (rewrite elem_of_cons); rewrite elem_of_nil; intuition congruence.

(** C10: with a valid stage, the first thing [runScript] does is to write
    [AWS_PROFILE] into the process environment, before the validator is
    called and before the [Config] is built: 'classy-test' for 'int' and
    'staging', 'prod-pay' for 'prod'. *)
Theorem aws_profile_set_first f d v proc opt stage :
  opt_stage opt = Some stage →
  stage ∈ ["int"; "staging"; "prod"] →
  ∃ profile rest,
    trace (runScript f d v proc opt)
      = SetEnv "AWS_PROFILE" profile
          :: ValidateArgs (opt_argv opt) (parse_dryRun (opt_dryRun opt)) :: rest
    ∧ final_env (runScript f d v proc opt)
        = <["AWS_PROFILE" := profile]> (env proc)
    ∧ (∀ c, NewConfig c ∈ trace (runScript f d v proc opt) → NewConfig c ∈ rest)
    ∧ (stage = "int" ∨ stage = "staging" → profile = "classy-test")
    ∧ (stage = "prod" → profile = "prod-pay").
Proof.
  intros Hs Hin. unfold runScript. rewrite Hs.
  apply stage_cases in Hin as [-> | [-> | ->]]; simpl;
    (destruct (truthy _); [| destruct (f _ _) as [cs fate]]); simpl;
    eexists _, _; (split; [reflexivity |]); (split; [reflexivity |]);
    (split; [intros c; rewrite !elem_of_cons; intuition congruence |]);
    split; intros; intuition congruence.
Qed.

Lemma aws_profile_set_first_witness :
  ∃ profile rest,
    trace (runScript (fun _ _ => ([], Fulfilled)) "" noValidation
             (mkProcess "node" "job.js" ∅) (mkOptions (Some "prod") None []))
      = SetEnv "AWS_PROFILE" profile :: ValidateArgs [] true :: rest
    ∧ profile = "prod-pay".
Proof.
  destruct (aws_profile_set_first (fun _ _ => ([], Fulfilled)) "" noValidation
              (mkProcess "node" "job.js" ∅) (mkOptions (Some "prod") None [])
              "prod" eq_refl)
    as (profile & rest & Ht & _ & _ & _ & Hp).
  - rewrite !elem_of_cons. tauto.
  - exists profile, rest. split; [exact Ht | by apply Hp].
Defined.

Lemma missing_stage_usage f d v proc opt :
  opt_stage opt = None ∨ opt_stage opt = Some "" →
  runScript f d v proc opt
  = mkOutcome Returned (env proc)
      [ConsoleError ("Please specify a stage" +:+ newline +:+ usage proc d)].
Proof. intros Hs. unfold runScript. by destruct Hs as [-> | ->]. Qed.

Lemma validator_message_usage f d v proc opt s msg :
  opt_stage opt = Some s → s ∈ ["int"; "staging"; "prod"] →
  v (opt_argv opt) (parse_dryRun (opt_dryRun opt)) = Some msg → msg ≠ "" →
  ∃ profile,
    runScript f d v proc opt
    = mkOutcome Returned (<["AWS_PROFILE" := profile]> (env proc))
        [SetEnv "AWS_PROFILE" profile;
         ValidateArgs (opt_argv opt) (parse_dryRun (opt_dryRun opt));
         ConsoleError ("Invalid arguments to script: " +:+ msg +:+ newline
                         +:+ usage proc d)].
Proof.
  intros Hs Hin Hv Hne. unfold runScript. rewrite Hs.
  apply stage_cases in Hin as [-> | [-> | ->]]; simpl; rewrite Hv;
    change (of_option (Some msg)) with (VStr msg);
    rewrite truthy_nonempty by done; eexists; reflexivity.
Qed.

(** C5, as the code has it.  When the option parser of lines 22-25 ends
    the process itself (as for [-s] with no value), [runScript] gets no
    further: only the parser's own report is made.  When the parser
    returns: a stage that is absent or empty, and a message from the
    validator, abort by usage message and plain return; a stage outside
    'int', 'staging', 'prod' throws [Invalid stage ...] and prints nothing.
    In all these cases no [Config] is built and the script is not run. *)
Theorem argument_errors f d v proc parse :
  (∀ report status,
     parse = Reading.ParserExit report status →
     Reading.runScript_system f d v proc parse
     = Reading.ProcessExit report status)
  ∧ (∀ opt,
       parse = Reading.Parsed opt →
       Reading.runScript_system f d v proc parse
       = Reading.Finished (runScript f d v proc opt)
       ∧ (opt_stage opt = None ∨ opt_stage opt = Some "" →
          aborts_with_usage (runScript f d v proc opt)
          ∧ runScript f d v proc opt
            = mkOutcome Returned (env proc)
                [ConsoleError ("Please specify a stage" +:+ newline
                                 +:+ usage proc d)])
       ∧ (∀ s, opt_stage opt = Some s → s ≠ "" →
               s ∉ ["int"; "staging"; "prod"] →
               runScript f d v proc opt
               = mkOutcome (Threw (mkError ("Invalid stage " +:+ s)))
                   (env proc) [])
       ∧ (∀ s msg, opt_stage opt = Some s → s ∈ ["int"; "staging"; "prod"] →
          v (opt_argv opt) (parse_dryRun (opt_dryRun opt)) = Some msg →
          msg ≠ "" →
          aborts_with_usage (runScript f d v proc opt)
          ∧ ∃ profile,
              trace (runScript f d v proc opt)
              = [SetEnv "AWS_PROFILE" profile;
                 ValidateArgs (opt_argv opt) (parse_dryRun (opt_dryRun opt));
                 ConsoleError ("Invalid arguments to script: " +:+ msg
                                 +:+ newline +:+ usage proc d)])).
Proof.
  split; [by intros report status -> |].
  intros opt ->. split; [reflexivity |]. split; [| split].
  - intros Hs. rewrite (missing_stage_usage f d v proc opt Hs).
    split; [| reflexivity].
    split; [reflexivity |]. simpl.
    split; [eexists; apply list_elem_of_here |].
    split; intros; not_in_trace.
  - intros s Hs Hne Hout. unfold runScript. rewrite Hs.
    change (of_option (Some s)) with (VStr s).
    rewrite truthy_nonempty by done. simpl.
    unfold valid_stage. by rewrite bool_decide_eq_false_2.
  - intros s msg Hs Hin Hv Hne.
    destruct (validator_message_usage f d v proc opt s msg Hs Hin Hv Hne)
      as [profile ->].
    split; [| by exists profile].
    split; [reflexivity |]. simpl.
    split; [eexists; do 2 apply list_elem_of_further; apply list_elem_of_here |].
    split; intros; not_in_trace.
Qed.

Lemma argument_errors_witness :
  Reading.runScript_system (fun _ _ => ([], Fulfilled)) "FILE" noValidation
    (mkProcess "node" "job.js" ∅)
    (Reading.ParserExit "ERROR: option stage need argument" 1)
  = Reading.ProcessExit "ERROR: option stage need argument" 1
  ∧ aborts_with_usage
      (runScript (fun _ _ => ([], Fulfilled)) "FILE" noValidation
         (mkProcess "node" "job.js" ∅) (mkOptions None None []))
  ∧ completion
      (runScript (fun _ _ => ([], Fulfilled)) "FILE" noValidation
         (mkProcess "node" "job.js" ∅) (mkOptions (Some "qa") None []))
    = Threw (mkError "Invalid stage qa")
  ∧ aborts_with_usage
      (runScript (fun _ _ => ([], Fulfilled)) "FILE"
         (fun _ _ => Some "no file given")
         (mkProcess "node" "job.js" ∅) (mkOptions (Some "int") None [])).
Proof.
  split; [| split; [| split]].
  - apply (argument_errors (fun _ _ => ([], Fulfilled)) "FILE" noValidation
             (mkProcess "node" "job.js" ∅)
             (Reading.ParserExit "ERROR: option stage need argument" 1)).
    reflexivity.
  - destruct (proj2 (argument_errors (fun _ _ => ([], Fulfilled)) "FILE"
                       noValidation (mkProcess "node" "job.js" ∅)
                       (Reading.Parsed (mkOptions None None [])))
                _ eq_refl) as (_ & Hmissing & _).
    apply Hmissing. by left.
  - destruct (proj2 (argument_errors (fun _ _ => ([], Fulfilled)) "FILE"
                       noValidation (mkProcess "node" "job.js" ∅)
                       (Reading.Parsed (mkOptions (Some "qa") None [])))
                _ eq_refl) as (_ & _ & Hinvalid & _).
    rewrite (Hinvalid "qa" eq_refl); [reflexivity | discriminate |].
    rewrite !elem_of_cons, elem_of_nil. intuition discriminate.
  - destruct (proj2 (argument_errors (fun _ _ => ([], Fulfilled)) "FILE"
                       (fun _ _ => Some "no file given")
                       (mkProcess "node" "job.js" ∅)
                       (Reading.Parsed (mkOptions (Some "int") None [])))
                _ eq_refl) as (_ & _ & _ & Hvalidator).
    apply (Hvalidator "int" "no file given" eq_refl);
      [rewrite !elem_of_cons; tauto | reflexivity | discriminate].
Defined.

(** C5 as stated fails for an invalid stage: [runScript] throws and prints
    no usage message. *)
Lemma invalid_stage_throws :
  let out :=
    runScript (fun _ _ => ([], Fulfilled)) "" noValidation
      (mkProcess "node" "job.js" ∅) (mkOptions (Some "qa") None []) in
  completion out = Threw (mkError "Invalid stage qa")
  ∧ trace out = []
  ∧ ¬ aborts_with_usage out.
Proof.
  split; [reflexivity |]. split; [reflexivity |].
  intros [Hc _]. discriminate Hc.
Qed.

End ScriptFacts.

(** ** The data sources *)

Module ScriptEnvironmentFacts.

Import ScriptEnvironment.

(** C9, as the code has it: [get] answers the reserved keys 'stage',
    'dryRun', 'args' and 'dir' from what [runScript] closed over, whatever
    environment the files have left behind.  Any other key is handed to
    lodash as a path into the environment: when the path resolves to
    nothing the answer is [null], never [undefined]; when it resolves
    (also for a key that the environment object does not have itself, such
    as a dotted path into a nested object) the answer is the resolved
    value. *)
Theorem reserved_keys_win baseGet c st key :
  reserved key = false →
  (∀ loaded,
     get baseGet c loaded "stage" = VStr (cfg_stage c)
     ∧ get baseGet c loaded "dryRun" = VBool (cfg_dryRun c)
     ∧ get baseGet c loaded "args" = VArr (map VStr (cfg_argv c))
     ∧ get baseGet c loaded "dir" = dir c)
  ∧ (st = None → get baseGet c st key = VNull)
  ∧ (∀ environment,
       st = Some environment →
       (baseGet environment key = VUndefined → get baseGet c st key = VNull)
       ∧ (is_nullish environment = false →
          baseGet environment key ≠ VUndefined →
          get baseGet c st key = baseGet environment key))
  ∧ get baseGet c st key ≠ VUndefined.
Proof.
  intros Hres. split; [done |].
  unfold reserved in Hres. apply bool_decide_eq_false in Hres.
  rewrite !elem_of_cons, elem_of_nil in Hres.
  assert (get baseGet c st key = lodash_get baseGet (default VUndefined st) key VNull)
    as ->.
  { unfold get, eqb_string.
    by rewrite !bool_decide_eq_false_2 by (intros ->; tauto). }
  unfold lodash_get. split; [by intros -> |]. split.
  - intros environment ->. simpl. split.
    + intros ->. by destruct (is_nullish environment).
    + intros -> Hdef. by destruct (baseGet environment key).
  - destruct (is_nullish (default VUndefined st)); [done |].
    by destruct (baseGet (default VUndefined st) key).
Qed.

Lemma reserved_keys_win_witness :
  let c := mkConfig "staging" true ["a.csv"] (Some "/work") in
  let json :=
    VObj [("staging", VObj [("stage", VStr "fake"); ("region", VStr "us-east-1")])] in
  let loaded :=
    fst (initialize merge_fields
           (fun file => eqb_string file "/work/environment.json")
           (fun _ => Normal json) (fun _ => Normal VNull) c None) in
  loaded = Some (VObj [("stage", VStr "fake"); ("region", VStr "us-east-1")])
  ∧ get own_property c loaded "stage" = VStr "staging"
  ∧ get own_property c loaded "region" = VStr "us-east-1"
  ∧ get own_property c loaded "timeout" = VNull.
Proof.
  intros c json loaded.
  destruct (reserved_keys_win own_property c loaded "timeout" eq_refl)
    as (Hreserved & _ & Hloaded & _).
  destruct (reserved_keys_win own_property c loaded "region" eq_refl)
    as (_ & _ & Hregion & _).
  split; [reflexivity |]. split; [apply (Hreserved loaded) |]. split.
  - rewrite (proj2 (Hregion _ eq_refl)); [reflexivity | reflexivity |].
    discriminate.
  - by apply (Hloaded _ eq_refl).
Defined.

(** C9 as stated fails for a key that the merged environment does not
    have but that resolves as a path: 'db.host' is not a key of the
    environment, and [get] answers with the host, not with [null]. *)
Lemma absent_key_can_resolve :
  let c := mkConfig "int" true [] (Some "/work") in
  let environment := VObj [("db", VObj [("host", VStr "10.0.0.5")])] in
  reserved "db.host" = false
  ∧ prop environment "db.host" = VUndefined
  ∧ get Reading.dotted_path c (Some environment) "db.host" = VStr "10.0.0.5"
  ∧ get Reading.dotted_path c (Some environment) "db.host" ≠ VNull.
Proof.
  split; [reflexivity |]. split; [reflexivity |]. split; [reflexivity |].
  discriminate.
Qed.

End ScriptEnvironmentFacts.

Module LocalDBFactoriesFacts.

Import LocalDBFactories.

Lemma strict_eq_str_true v s : strict_eq_str v s = true ↔ v = VStr s.
Proof.
  destruct v; simpl; try (split; [discriminate | congruence]).
  unfold eqb_string. rewrite bool_decide_eq_true. split; congruence.
Qed.

Lemma strict_eq_str_false v s : v ≠ VStr s → strict_eq_str v s = false.
Proof.
  intros Hne. destruct (strict_eq_str v s) eqn:E; [| done].
  by apply strict_eq_str_true in E.
Qed.

(** C8: [initialize] rejects with [No port for stage ...] unless the stage
    is 'prod' (port 9306) or 'staging' (port 8306); 'int', which
    [runScript] accepts, is rejected, also through the [Config] that
    [runScript] builds, whose first source answers 'stage'. *)
Theorem initialize_needs_prod_or_staging :
  (∀ config_get st stage,
     config_get "stage" = Normal stage →
     (stage = VStr "prod" → port (fst (initialize config_get st)) = VNum 9306)
     ∧ (stage = VStr "staging" →
        port (fst (initialize config_get st)) = VNum 8306)
     ∧ (stage ≠ VStr "prod" → stage ≠ VStr "staging" →
        initialize config_get st
        = (st, Thrown (mkError ("No port for stage " +:+ to_string stage)))))
  ∧ Script.valid_stage "int" = true
  ∧ (∀ defined baseGet c environment others st,
       (∀ s, defined (VStr s) = true) →
       cfg_stage c = "int" →
       initialize
         (ConfigLookup.config_get defined
            ((fun key => Normal (ScriptEnvironment.get baseGet c environment key))
               :: others)) st
       = (st, Thrown (mkError "No port for stage int"))).
Proof.
  assert (∀ config_get st stage,
     config_get "stage" = Normal stage →
     stage ≠ VStr "prod" → stage ≠ VStr "staging" →
     initialize config_get st
     = (st, Thrown (mkError ("No port for stage " +:+ to_string stage)))) as Hrej.
  { intros config_get st stage Hget Hp Hs. unfold initialize. rewrite Hget.
    by rewrite !strict_eq_str_false. }
  split; [| split].
  - intros config_get st stage Hget. split; [| split].
    + intros ->. unfold initialize. rewrite Hget. simpl.
      destruct (config_get "CLASSY_DB_USERNAME"); [| done].
      by destruct (config_get "CLASSY_DB_PASSWORD").
    + intros ->. unfold initialize. rewrite Hget. simpl.
      destruct (config_get "CLASSY_DB_USERNAME"); [| done].
      by destruct (config_get "CLASSY_DB_PASSWORD").
    + by apply Hrej.
  - reflexivity.
  - intros defined baseGet c environment others st Hdef Hint.
    apply (Hrej _ st (VStr "int")); [| discriminate | discriminate].
    simpl. change (ScriptEnvironment.get baseGet c environment "stage")
      with (VStr (cfg_stage c)).
    by rewrite Hdef, Hint.
Qed.

Lemma initialize_needs_prod_or_staging_witness :
  port (fst (initialize
               (fun key => Normal (if eqb_string key "stage" then VStr "prod"
                                   else VStr "secret")) fresh))
  = VNum 9306
  ∧ snd (initialize (fun _ => Normal (VStr "int")) fresh)
    = Thrown (mkError "No port for stage int")
  ∧ snd (initialize
           (ConfigLookup.config_get ConfigLookup.not_undefined
              [fun key => Normal (ScriptEnvironment.get
                                    ScriptEnvironment.own_property
                                    (mkConfig "int" true [] None) None key)])
           fresh)
    = Thrown (mkError "No port for stage int").
Proof.
  destruct initialize_needs_prod_or_staging as (Hany & _ & Hint).
  split; [| split].
  - apply (Hany _ fresh (VStr "prod")); reflexivity.
  - rewrite (proj2 (proj2 (Hany (fun _ => Normal (VStr "int")) fresh
                             (VStr "int") eq_refl))); [done | done | done].
  - rewrite Hint; [done | done | done].
Defined.

(** C6, as the code has it: for every key but 'stayClassyDB', [get] is a
    pure lookup that answers [undefined]; for 'stayClassyDB' every call
    creates one more pool, built from the stored user, password and port,
    so two calls answer with two different pools.  [get] never throws. *)
Theorem get_creates_a_pool_per_call st key :
  (key ≠ "stayClassyDB" →
     pure_lookup st key ∧ ∀ h, get st key h = (h, VUndefined))
  ∧ (key = "stayClassyDB" →
     ∀ h, ∃ db,
       get st key h = (h ++ [db], VRef (length h))
       ∧ get st key (h ++ [db]) = ((h ++ [db]) ++ [db], VRef (S (length h)))
       ∧ db = mkPoolOptions 25 "127.0.0.1" (user st) (password st)
                "stayclassy" (port st)).
Proof.
  split.
  - intros Hne.
    assert (∀ h, get st key h = (h, VUndefined)) as Hget.
    { intros h. unfold get, eqb_string. by rewrite bool_decide_eq_false_2. }
    split; [| exact Hget]. intros h. by rewrite !Hget.
  - intros -> h. eexists. split; [reflexivity |]. split; [| reflexivity].
    unfold get. simpl. rewrite length_app. simpl.
    by replace (length h + 1) with (S (length h)) by lia.
Qed.

Lemma get_creates_a_pool_per_call_witness :
  pure_lookup (mkState (VNum 9306) (VStr "u") (VStr "p")) "region"
  ∧ ∃ db, get (mkState (VNum 9306) (VStr "u") (VStr "p")) "stayClassyDB" []
          = ([db], VRef 0).
Proof.
  split.
  - apply (get_creates_a_pool_per_call
             (mkState (VNum 9306) (VStr "u") (VStr "p")) "region").
    discriminate.
  - destruct (proj2 (get_creates_a_pool_per_call
                       (mkState (VNum 9306) (VStr "u") (VStr "p"))
                       "stayClassyDB") eq_refl []) as (db & Hget & _).
    exists db. exact Hget.
Defined.

(** C6 as stated fails for 'stayClassyDB': the second call answers with a
    pool that is not the first one. *)
Lemma stayClassyDB_not_stable :
  let st := mkState (VNum 9306) (VStr "u") (VStr "p") in
  snd (get st "stayClassyDB" []) = VRef 0
  ∧ snd (get st "stayClassyDB" (fst (get st "stayClassyDB" []))) = VRef 1
  ∧ ¬ pure_lookup st "stayClassyDB".
Proof.
  split; [reflexivity |]. split; [reflexivity |].
  intros H. destruct (H []) as [Hheap _]. discriminate Hheap.
Qed.

End LocalDBFactoriesFacts.

(** ** [runPipes] *)

Module PipesFacts.

Import Pipes PipesSpec.

Section Run.

Variable W : Streams.
Variable config : Config.
Variable args : list string.
Variable context : Context.
Variable pipeline : Pipeline.

Lemma with_calls_nil r : with_calls r [] = r.
Proof. destruct r. unfold with_calls. simpl. by rewrite app_nil_r. Qed.

Lemma with_calls_app r a b :
  with_calls (with_calls r a) b = with_calls r (a ++ b).
Proof. unfold with_calls. simpl. by rewrite app_assoc. Qed.

Lemma pipe_all_run l r :
  pipe_all W l r
  = (with_calls r (fst (pipe_trace W l)),
     match snd (pipe_trace W l) with
     | Some e => Thrown e
     | None => Normal tt
     end).
Proof.
  revert r. induction l as [| [a b] l IH]; intros r; simpl.
  - by rewrite with_calls_nil.
  - unfold bind, pipe, emit at 1. simpl.
    destruct (pipe_throws W a b) as [e |] eqn:E; simpl; [done |].
    unfold ret. rewrite IH. destruct (pipe_trace W l) as [t o]. simpl.
    f_equal. unfold with_calls. simpl. by rewrite <- app_assoc.
Qed.

Lemma loop_tail rest : ∀ pre x r,
  for_each (seq (S (length pre)) (length rest)) (loop_body W pipeline (pre ++ x :: rest)) r
  = pipe_all W (adjacent (x :: rest)) r.
Proof.
  induction rest as [| y rest IH]; intros pre x r; [done |].
  cbn [length seq for_each adjacent pipe_all].
  unfold bind at 1. unfold loop_body at 1.
  cbn [Nat.eqb]. rewrite Nat.sub_1_r. cbn [Nat.pred].
  unfold bind at 1. unfold at_index at 1.
  rewrite list_lookup_middle by done.
  unfold ret at 1. unfold bind at 1. unfold at_index at 1.
  replace (pre ++ x :: y :: rest) with ((pre ++ [x]) ++ y :: rest)
    by (by rewrite <- app_assoc).
  rewrite list_lookup_middle by (rewrite length_app; simpl; lia).
  unfold ret at 1.
  change (match rest with [] => [] | b :: _ => (y, b) :: adjacent rest end)
    with (adjacent (y :: rest)).
  unfold bind.
  destruct (pipe W x y r) as [r' [[] | e]]; [| done].
  specialize (IH (pre ++ [x]) y r').
  rewrite length_app in IH. simpl in IH.
  replace (length pre + 1) with (S (length pre)) in IH by lia.
  exact IH.
Qed.

Lemma pipe_all_app l1 l2 r :
  pipe_all W (l1 ++ l2) r = bind (pipe_all W l1) (fun _ => pipe_all W l2) r.
Proof.
  revert r. induction l1 as [| [a b] l1 IH]; intros r; [done |].
  cbn [app pipe_all]. unfold bind in *.
  destruct (pipe W a b r) as [r' [[] | e]]; [apply IH | done].
Qed.

Lemma adjacent_snoc l x k :
  last (x :: l) = Some k →
  ∀ z, adjacent ((x :: l) ++ [z]) = adjacent (x :: l) ++ [(k, z)].
Proof.
  revert x. induction l as [| y l IH]; intros x Hlast z.
  - simpl in Hlast. by simplify_eq.
  - rewrite last_cons_cons in Hlast.
    change (adjacent ((x :: y :: l) ++ [z]))
      with ((x, y) :: adjacent ((y :: l) ++ [z])).
    by rewrite (IH y Hlast z).
Qed.

Lemma loop_run t0 rest r :
  for_each (seq 0 (length (t0 :: rest))) (loop_body W pipeline (t0 :: rest)) r
  = pipe_all W (adjacent (option_list (source pipeline) ++ t0 :: rest)) r.
Proof.
  cbn [length seq for_each]. unfold bind at 1. unfold loop_body at 1.
  cbn [Nat.eqb]. destruct (source pipeline) as [s |].
  - unfold bind at 1, at_index at 1. cbn [lookup list_lookup]. unfold ret at 1.
    cbn [option_list app]. change (adjacent (s :: t0 :: rest))
      with ((s, t0) :: adjacent (t0 :: rest)).
    cbn [pipe_all]. unfold bind.
    destruct (pipe W s t0 r) as [r' [[] | e]]; [| done].
    apply (loop_tail rest [] t0).
  - unfold ret at 1. apply (loop_tail rest [] t0 r).
Qed.

Lemma wire_run r :
  wire W pipeline r
  = bind (pipe_all W (adjacent (stages pipeline)))
      (fun _ => ret (terminal pipeline)) r.
Proof.
  unfold wire, stages, terminal.
  destruct (default [] (transforms pipeline)) as [| t0 rest] eqn:Ets.
  - cbn [length seq for_each Nat.ltb Nat.leb last option_list app].
    destruct (sink pipeline) as [k |], (source pipeline) as [s |];
      cbn; unfold bind, ret; cbn; try done.
    by destruct (pipe_throws W s k).
  - assert (Hlast : ∃ tl, last (t0 :: rest) = Some tl).
    { destruct (last (t0 :: rest)) eqn:E; [eauto |].
      by apply last_None in E. }
    destruct Hlast as [tl Hlast].
    replace (length (t0 :: rest) - 1) with (pred (length (t0 :: rest)))
      by (simpl; lia).
    rewrite <- last_lookup, Hlast.
    change (0 <? length (t0 :: rest))%nat with true. cbv iota.
    unfold bind at 1. rewrite loop_run.
    destruct (sink pipeline) as [k |].
    + rewrite app_assoc.
      assert (∃ y l, option_list (source pipeline) ++ t0 :: rest = y :: l
                     ∧ last (y :: l) = Some tl) as (y & l & Hyl & Hl).
      { destruct (source pipeline) as [s |]; cbn [option_list app].
        - exists s, (t0 :: rest). by rewrite last_cons_cons.
        - by exists t0, rest. }
      rewrite Hyl. cbn [option_list].
      rewrite (adjacent_snoc l y tl Hl k).
      unfold bind at 3. rewrite pipe_all_app. unfold bind at 3.
      destruct (pipe_all W (adjacent (y :: l)) r) as [r1 [[] | e]]; [| done].
      cbn [pipe_all]. unfold bind, at_index.
      rewrite <- last_lookup, Hlast. unfold ret.
      by destruct (pipe W tl k r1) as [r2 [[] | e]].
    + cbn [option_list]. rewrite app_nil_r. unfold bind.
      by destruct (pipe_all W _ r) as [r1 [[] | e]].
Qed.

Lemma first_turn_eq :
  turn config args context pipeline (executor W config args context pipeline)
    start
  = first_turn W config args context pipeline.
Proof.
  unfold turn, executor, try_catch. unfold bind at 1. rewrite wire_run.
  unfold bind at 1. rewrite pipe_all_run.
  unfold first_turn, wiring_error, wiring_calls.
  destruct (pipe_trace W (adjacent (stages pipeline))) as [t [e |]];
    cbn; [done |].
  destruct (terminal pipeline) as [s |]; cbn.
  - by destruct (on_throws W s) as [e |]; cbn.
  - by rewrite <- !app_assoc.
Qed.

Lemma settled_turn r sg :
  called r = true → resumed r = true →
  turn config args context pipeline (deliver sg) r
  = mkRun true (promise r) (listening r)
      (match sg with Finish _ => in_setup r | _ => false end) true (calls r).
Proof.
  destruct r as [c pr li ins rs cs]. simpl. intros -> ->.
  unfold turn, deliver, on_finish_listener, catch_block, unless_called, bind,
    resume.
  destruct sg; simpl.
  - by destruct (bool_decide _).
  - by destruct ins.
  - by destruct ins.
Qed.

Lemma settled_loop sigs : ∀ r,
  called r = true → resumed r = true →
  let r' := event_loop config args context pipeline sigs r in
  called r' = true ∧ resumed r' = true ∧ promise r' = promise r
  ∧ calls r' = calls r ∧ listening r' = listening r.
Proof.
  induction sigs as [| sg sigs IH]; intros r Hc Hr; [done |].
  cbn [event_loop fold_left]. rewrite (settled_turn r sg Hc Hr).
  by apply (IH (mkRun true (promise r) (listening r) _ true (calls r))).
Qed.

Ltac use_settled sigs :=
  match goal with
  | |- context [event_loop _ _ _ _ sigs ?r] =>
      destruct (settled_loop sigs r eq_refl eq_refl)
        as (Hc & Hr & Hp & Hcs & Hl)
  end.

Lemma event_loop_cons sg sigs r :
  event_loop config args context pipeline (sg :: sigs) r
  = event_loop config args context pipeline sigs
      (turn config args context pipeline (deliver sg) r).
Proof. reflexivity. Qed.

Lemma waiting_turn s b base sg :
  turn config args context pipeline (deliver sg)
    (mkRun false None (Some s) b false base)
  = match sg with
    | Finish x =>
        if bool_decide (Some s = Some x)
        then mkRun true (Some Resolved) (Some s) b true
               (base ++ [Resolve; CallTeardown config args context pipeline])
        else mkRun false None (Some s) b false base
    | SetupReturned => mkRun false None (Some s) false false base
    | SetupThrew e =>
        if b
        then mkRun true (Some (Rejected e)) (Some s) false true
               (base ++ [Reject e])
        else mkRun false None (Some s) b false base
    end.
Proof.
  unfold turn, deliver. destruct sg as [x | | e]; cbn.
  - destruct (bool_decide (Some s = Some x)); cbn; [| done].
    by rewrite <- app_assoc.
  - by destruct b.
  - by destruct b.
Qed.

Lemma waiting_loop s sigs : ∀ b base,
  let r := event_loop config args context pipeline sigs
             (mkRun false None (Some s) b false base) in
  promise r = first_effective b s sigs
  ∧ calls r = base ++ late_calls config args context pipeline
                        (first_effective b s sigs)
  ∧ listening r = Some s
  ∧ (promise r ≠ None → called r = true ∧ resumed r = true).
Proof.
  induction sigs as [| sg sigs IH]; intros b base.
  - simpl. rewrite app_nil_r. done.
  - cbn zeta. rewrite event_loop_cons, waiting_turn.
    destruct sg as [x | | e]; cbn [first_effective].
    + destruct (bool_decide (Some s = Some x)); [| apply IH].
      use_settled sigs. by rewrite Hp, Hcs, Hl.
    + apply IH.
    + destruct b; [| apply IH].
      use_settled sigs. by rewrite Hp, Hcs, Hl.
Qed.

Lemma run_shape sigs :
  let r := run_pipeline W config args context pipeline sigs in
  promise r = outcome W pipeline sigs
  ∧ calls r = expected_calls W config args context pipeline sigs
  ∧ (promise r ≠ None → called r = true ∧ resumed r = true).
Proof.
  unfold run_pipeline. rewrite first_turn_eq.
  unfold first_turn, outcome, expected_calls.
  destruct (wiring_error W pipeline) as [e |].
  - cbn zeta. use_settled sigs. by rewrite Hp, Hcs.
  - destruct (terminal pipeline) as [s |].
    + destruct (waiting_loop s sigs true
                  (wiring_calls W pipeline
                     ++ [CallSetup config args context pipeline]))
        as (Hp & Hcs & _ & Hset).
      done.
    + cbn zeta. use_settled sigs. by rewrite Hp, Hcs.
Qed.

End Run.

Lemma count_app f a b : count f (a ++ b) = count f a + count f b.
Proof. unfold count. by rewrite List.filter_app, length_app. Qed.

Lemma pipes_in_app a b : pipes_in (a ++ b) = pipes_in a ++ pipes_in b.
Proof.
  induction a as [| ev a IH]; [done |].
  destruct ev; simpl; by rewrite ?IH.
Qed.

Lemma count_wiring f l :
  (∀ ev, is_wiring ev = true → f ev = false) →
  Forall (fun ev => is_wiring ev = true) l → count f l = 0.
Proof.
  intros Hf. induction 1 as [| ev l Hev _ IH]; [done |].
  unfold count in *. simpl. by rewrite (Hf ev Hev).
Qed.

Lemma pipe_trace_wiring W l :
  Forall (fun ev => is_wiring ev = true) (fst (pipe_trace W l)).
Proof.
  induction l as [| [a b] l IH]; simpl; [constructor |].
  destruct (pipe_throws W a b); simpl; [by repeat constructor |].
  destruct (pipe_trace W l). simpl in *. by constructor.
Qed.

Lemma pipe_trace_complete W l :
  snd (pipe_trace W l) = None → pipes_in (fst (pipe_trace W l)) = l.
Proof.
  induction l as [| [a b] l IH]; simpl; [done |].
  destruct (pipe_throws W a b); simpl; [done |].
  destruct (pipe_trace W l). simpl in *. intros Hn. by rewrite IH.
Qed.

Lemma wiring_calls_wiring W p :
  Forall (fun ev => is_wiring ev = true) (wiring_calls W p).
Proof.
  unfold wiring_calls. pose proof (pipe_trace_wiring W (adjacent (stages p))) as H.
  destruct (pipe_trace W (adjacent (stages p))) as [t [e |]]; simpl in H; [done |].
  destruct (terminal p); [| done].
  apply Forall_app. split; [done | by repeat constructor].
Qed.

Lemma wiring_calls_complete W p :
  wiring_error W p = None → pipes_in (wiring_calls W p) = adjacent (stages p).
Proof.
  unfold wiring_error, wiring_calls.
  pose proof (pipe_trace_complete W (adjacent (stages p))) as H.
  destruct (pipe_trace W (adjacent (stages p))) as [t [e |]]; simpl in *;
    [done |].
  intros _. destruct (terminal p); [| by apply H].
  rewrite pipes_in_app, H by done. simpl. by rewrite app_nil_r.
Qed.

Lemma wiring_calls_listener W p s :
  OnFinish s ∈ wiring_calls W p → terminal p = Some s.
Proof.
  unfold wiring_calls.
  assert (Hno : OnFinish s ∉ (pipe_trace W (adjacent (stages p))).1).
  { induction (adjacent (stages p)) as [| [a b] l IH]; simpl.
    - apply not_elem_of_nil.
    - destruct (pipe_throws W a b); simpl.
      + rewrite list_elem_of_singleton. congruence.
      + destruct (pipe_trace W l). simpl in *.
        rewrite elem_of_cons. intuition congruence. }
  destruct (pipe_trace W (adjacent (stages p))) as [t [e |]]; simpl in *;
    [done |].
  destruct (terminal p) as [x |]; [| done].
  rewrite elem_of_app, list_elem_of_singleton. intros [? | ?]; [done |].
  congruence.
Qed.

Lemma wiring_calls_no_setup W p c a x q :
  CallSetup c a x q ∉ wiring_calls W p.
Proof.
  intros Hin. pose proof (wiring_calls_wiring W p) as H.
  rewrite Forall_forall in H. by specialize (H _ Hin).
Qed.

Lemma late_calls_quiet c a x q o :
  pipes_in (late_calls c a x q o) = []
  ∧ count is_setup (late_calls c a x q o) = 0.
Proof. by destruct o as [[| e] |]. Qed.

(** C7: whenever the setup hook is invoked, every [pipe] call of the wiring
    (one for each adjacent pair of [[source, ...transforms, sink]]) has
    been made before it and none is made after it; the hook is invoked
    exactly when wiring and listener registration threw nothing. *)
Theorem wiring_before_setup W config args ctx p sigs :
  CallSetup config args ctx p ∈ calls (run_pipeline W config args ctx p sigs) →
  wiring_error W p = None
  ∧ ∃ pre post,
      calls (run_pipeline W config args ctx p sigs)
        = pre ++ CallSetup config args ctx p :: post
      ∧ pipes_in pre = adjacent (stages p)
      ∧ pipes_in post = []
      ∧ count is_setup (pre ++ post) = 0.
Proof.
  destruct (run_shape W config args ctx p sigs) as (_ & -> & _).
  unfold expected_calls.
  pose proof (wiring_calls_wiring W p) as Hw.
  pose proof (wiring_calls_complete W p) as Hc.
  destruct (wiring_error W p) as [e |].
  - rewrite elem_of_app, list_elem_of_singleton. intros [Hin | ?]; [| done].
    by apply wiring_calls_no_setup in Hin.
  - intros _. split; [done |]. specialize (Hc eq_refl).
    destruct (terminal p) as [s |].
    + exists (wiring_calls W p),
        (late_calls config args ctx p (first_effective true s sigs)).
      destruct (late_calls_quiet config args ctx p (first_effective true s sigs))
        as [Hp Hs].
      split; [by rewrite <- app_assoc |]. split; [done |]. split; [done |].
      rewrite count_app, Hs, (count_wiring is_setup); [done | | done].
      by intros [].
    + exists (wiring_calls W p ++ [Resolve]), [CallTeardown config args ctx p].
      split; [by rewrite <- app_assoc |].
      split; [rewrite pipes_in_app, Hc; simpl; by rewrite app_nil_r |].
      split; [done |].
      rewrite !count_app, (count_wiring is_setup); [done | | done].
      by intros [].
Qed.

Lemma wiring_before_setup_witness :
  ∃ pre post,
    calls (run_pipeline quiet (mkConfig "prod" true [] None) [] 0
             (mkPipeline (Some 1) (Some [2; 3]) (Some 4)) [SetupReturned; Finish 4])
      = pre ++ CallSetup (mkConfig "prod" true [] None) [] 0
                 (mkPipeline (Some 1) (Some [2; 3]) (Some 4)) :: post
    ∧ pipes_in pre = [(1, 2); (2, 3); (3, 4)]
    ∧ pipes_in post = [].
Proof.
  destruct (wiring_before_setup quiet (mkConfig "prod" true [] None) [] 0
              (mkPipeline (Some 1) (Some [2; 3]) (Some 4))
              [SetupReturned; Finish 4])
    as (_ & pre & post & Hcalls & Hpre & Hpost & _).
  - vm_compute. do 4 apply list_elem_of_further. apply list_elem_of_here.
  - exists pre, post. split; [exact Hcalls |]. split; [exact Hpre | exact Hpost].
Defined.

Lemma setup_invoked W config args ctx p sigs :
  wiring_error W p = None →
  CallSetup config args ctx p ∈ calls (run_pipeline W config args ctx p sigs).
Proof.
  intros Hw. destruct (run_shape W config args ctx p sigs) as (_ & -> & _).
  unfold expected_calls. rewrite Hw.
  destruct (terminal p); rewrite !elem_of_app, ?elem_of_cons; tauto.
Qed.

Lemma count_wiring_calls W p f :
  (∀ ev, is_wiring ev = true → f ev = false) → count f (wiring_calls W p) = 0.
Proof. intros Hf. apply count_wiring; [done | apply wiring_calls_wiring]. Qed.

(** On the resolved path line 240 does its work: teardown is called
    exactly once, after the [resolve] call, as the last call of the run
    and with the arguments of the setup call. *)
Lemma teardown_once_resolved W config args ctx p sigs :
  let r := run_pipeline W config args ctx p sigs in
  promise r = Some Resolved →
  count is_teardown (calls r) = 1
  ∧ ∃ pre mid, calls r = pre ++ Resolve :: mid
                           ++ [CallTeardown config args ctx p].
Proof.
  destruct (run_shape W config args ctx p sigs) as (Hp & Hc & _).
  cbn zeta. rewrite Hp, Hc. unfold outcome, expected_calls.
  assert (count is_teardown (wiring_calls W p) = 0) as Hw
    by (apply count_wiring_calls; by intros []).
  destruct (wiring_error W p) as [e |]; [done |].
  destruct (terminal p) as [s |].
  - destruct (first_effective true s sigs) as [[| e] |]; cbn [late_calls];
      [| done | done].
    intros _. split.
    + by rewrite !count_app, Hw.
    + by exists (wiring_calls W p ++ [CallSetup config args ctx p]), [].
  - intros _. split.
    + by rewrite !count_app, Hw.
    + by exists (wiring_calls W p), [CallSetup config args ctx p].
Qed.

(** C1: the claim holds of the resolved path only.  When the setup hook
    throws before the sink has finished, the promise of line 195 is
    rejected, the [await] of line 195 throws past line 240, which no
    [finally] protects: teardown is never called, and the error reaches
    [runScript], which prints it. *)
Lemma teardown_skipped_on_error :
  let p := mkPipeline (Some 1) (Some [2; 3]) (Some 4) in
  let c := mkConfig "prod" true [] None in
  let e := mkError "no table" in
  let r := run_pipeline quiet c [] 0 p [SetupThrew e; Finish 4] in
  promise r = Some (Rejected e)
  ∧ count is_teardown (calls r) = 0
  ∧ ¬ teardown_whenever_settled r
  ∧ Script.trace
      (runPipes (fun _ _ _ => Normal p)
         (mkBehaviour quiet 0 [SetupThrew e; Finish 4] Fulfilled)
         "" Script.noValidation
         (Script.mkProcess "node" "job.js" ∅)
         (Script.mkOptions (Some "prod") None []))
    = [SetEnv "AWS_PROFILE" "prod-pay"; ValidateArgs [] true;
       NewConfig c; CallScript c []; CallFactory c [] 0;
       Pipe 1 2; Pipe 2 3; Pipe 3 4; OnFinish 4; CallSetup c [] 0 p;
       Reject e; ConsoleErrorValue e].
Proof.
  split; [reflexivity |]. split; [reflexivity |]. split; [| reflexivity].
  intros H. assert (0 = 1) as Habs; [| discriminate Habs].
  apply H. discriminate.
Qed.

Lemma setup_ends_cons sg sigs :
  setup_ends (sg :: sigs) = (if ends_setup sg then 1 else 0) + setup_ends sigs.
Proof.
  unfold setup_ends. simpl. by destruct (ends_setup sg).
Qed.

Lemma first_effective_no_end s sigs : ∀ b,
  setup_ends sigs = 0 → first_effective b s sigs = first_signal (Some s) sigs.
Proof.
  induction sigs as [| sg sigs IH]; intros b; [done |].
  rewrite setup_ends_cons. destruct sg as [x | | e]; simpl; [| lia | lia].
  intros H. by rewrite (IH b H).
Qed.

Lemma first_effective_one_end s sigs :
  setup_ends sigs ≤ 1 →
  first_effective true s sigs = first_signal (Some s) sigs.
Proof.
  induction sigs as [| sg sigs IH]; [done |].
  rewrite setup_ends_cons. destruct sg as [x | | e]; simpl; intros H.
  - by rewrite IH.
  - apply first_effective_no_end. lia.
  - done.
Qed.





Lemma wire_returns_terminal W p r fs :
  snd (wire W p r) = Normal fs → fs = terminal p.
Proof.
  rewrite wire_run. unfold bind. rewrite pipe_all_run.
  destruct (snd (pipe_trace W (adjacent (stages p)))); simpl; congruence.
Qed.

(** C3, as the code has it: [finalStream] is the sink if there is one, else
    the last transform if there is one, else nothing, whether or not there
    is a source; when wiring throws nothing, the 'finish' listener is
    registered on that stream and on no other, and the run is resolved in
    its first turn exactly when there is no such stream. *)
Theorem listener_on_terminal W config args ctx p :
  wiring_error W p = None →
  let r := run_pipeline W config args ctx p [] in
  listening r = terminal p
  ∧ (∀ s, OnFinish s ∈ calls r ↔ terminal p = Some s)
  ∧ (promise r = Some Resolved ↔ terminal p = None)
  ∧ (terminal p = None ↔ sink p = None ∧ default [] (transforms p) = [])
  ∧ (∀ r0 fs, snd (wire W p r0) = Normal fs → fs = terminal p).
Proof.
  intros Hw. cbn zeta.
  unfold run_pipeline. cbn [event_loop fold_left]. rewrite first_turn_eq.
  unfold first_turn. rewrite Hw.
  split; [by destruct (terminal p) |].
  split; [| split; [by destruct (terminal p) | split]].
  - intros s. split.
    + intros Hin.
      assert (OnFinish s ∈ wiring_calls W p) as Hin'.
      { destruct (terminal p); cbn [calls] in Hin;
          rewrite elem_of_app, ?elem_of_cons, elem_of_nil in Hin;
          intuition congruence. }
      by apply wiring_calls_listener in Hin'.
    + intros Ht. rewrite Ht. cbn [calls]. apply elem_of_app. left.
      unfold wiring_calls, wiring_error in *. rewrite Ht in *.
      destruct (pipe_trace W (adjacent (stages p))) as [t [e |]];
        simpl in *; [done |].
      apply elem_of_app. right. apply list_elem_of_here.
  - unfold terminal. destruct (sink p); [intuition discriminate |].
    rewrite last_None. tauto.
  - apply wire_returns_terminal.
Qed.

Lemma listener_on_terminal_witness :
  listening (run_pipeline quiet (mkConfig "prod" true [] None) [] 0
               (mkPipeline (Some 1) (Some [2; 3]) None) [])
  = Some 3
  ∧ promise (run_pipeline quiet (mkConfig "prod" true [] None) [] 0
               (mkPipeline (Some 1) None None) [])
    = Some Resolved.
Proof.
  split.
  - rewrite (proj1 (listener_on_terminal quiet (mkConfig "prod" true [] None)
                      [] 0 (mkPipeline (Some 1) (Some [2; 3]) None) eq_refl)).
    reflexivity.
  - apply (listener_on_terminal quiet (mkConfig "prod" true [] None)
             [] 0 (mkPipeline (Some 1) None None) eq_refl).
    reflexivity.
Defined.

(** C3 as stated fails for a pipeline that has only a source: the spec
    takes the source as the terminal stage, the code registers no listener
    on it and resolves the run at once. *)
Lemma source_is_never_terminal :
  let p := mkPipeline (Some 1) None None in
  let r := run_pipeline quiet (mkConfig "prod" true [] None) [] 0 p [] in
  terminal_in_spec p = Some 1
  ∧ listening r = None
  ∧ listening r ≠ terminal_in_spec p
  ∧ (OnFinish 1 ∉ calls r)
  ∧ promise r = Some Resolved.
Proof.
  split; [reflexivity |]. split; [reflexivity |]. split; [discriminate |].
  split; [| reflexivity].
  intros Hin. apply list_elem_of_In in Hin. vm_compute in Hin.
  intuition discriminate.
Qed.

(** C4, as the code has it: for a pipeline that has only a sink no [pipe]
    call is made and the 'finish' listener goes on the sink; the run is not
    settled by its first turn: it waits for the sink's 'finish' (or for an
    error of the setup hook), and teardown is called once if and when the
    run is resolved. *)
Theorem sink_only_waits_for_finish W config args ctx snk ts sigs :
  ts = None ∨ ts = Some [] →
  let p := mkPipeline None ts (Some snk) in
  let r := run_pipeline W config args ctx p sigs in
  pipes_in (calls r) = []
  ∧ OnFinish snk ∈ calls r
  ∧ (on_throws W snk = None →
     promise (run_pipeline W config args ctx p []) = None
     ∧ (setup_ends sigs ≤ 1 → promise r = first_signal (Some snk) sigs)
     ∧ (promise r = Some Resolved → count is_teardown (calls r) = 1)
     ∧ (promise r ≠ Some Resolved → count is_teardown (calls r) = 0)).
Proof.
  intros Hts. cbn zeta.
  set (p := mkPipeline None ts (Some snk)).
  assert (Hterm : terminal p = Some snk) by done.
  assert (Hwe : wiring_error W p = on_throws W snk)
    by (by destruct Hts as [-> | ->]).
  assert (Hwc : wiring_calls W p = [OnFinish snk])
    by (by destruct Hts as [-> | ->]).
  destruct (run_shape W config args ctx p sigs) as (Hp & Hc & _).
  split; [| split].
  - rewrite Hc. unfold expected_calls. rewrite Hwe, Hwc, Hterm.
    destruct (on_throws W snk); [done |].
    by destruct (first_effective true snk sigs) as [[| e] |].
  - rewrite Hc. unfold expected_calls. rewrite Hwe, Hwc, Hterm.
    destruct (on_throws W snk); rewrite !elem_of_app, list_elem_of_singleton;
      tauto.
  - intros Hon. rewrite Hon in Hwe.
    split; [| split].
    + destruct (run_shape W config args ctx p []) as (-> & _).
      unfold outcome. by rewrite Hwe, Hterm.
    + intros Hends. rewrite Hp. unfold outcome. rewrite Hwe, Hterm.
      by apply first_effective_one_end.
    + rewrite Hp, Hc. unfold outcome, expected_calls.
      rewrite Hwe, Hwc, Hterm.
      by destruct (first_effective true snk sigs) as [[| e] |].
Qed.

Lemma sink_only_waits_for_finish_witness :
  pipes_in (calls (run_pipeline quiet (mkConfig "prod" true [] None) [] 0
                     (mkPipeline None None (Some 4)) [SetupReturned; Finish 4]))
  = []
  ∧ promise (run_pipeline quiet (mkConfig "prod" true [] None) [] 0
               (mkPipeline None None (Some 4)) [])
    = None
  ∧ promise (run_pipeline quiet (mkConfig "prod" true [] None) [] 0
               (mkPipeline None None (Some 4)) [SetupReturned; Finish 4])
    = Some Resolved.
Proof.
  destruct (sink_only_waits_for_finish quiet (mkConfig "prod" true [] None) [] 0
              4 None [SetupReturned; Finish 4] (or_introl eq_refl))
    as (Hpipes & _ & Hrest).
  destruct (Hrest eq_refl) as (Hfirst & Hsig & _).
  split; [exact Hpipes |]. split; [exact Hfirst |].
  exact (eq_trans (Hsig ltac:(vm_compute; lia)) eq_refl).
Defined.

(** C4 as stated fails: after the first turn of a sink-only run, and after
    the setup hook has returned, the run is still pending and teardown has
    not been called. *)
Lemma sink_only_does_not_complete_immediately :
  let p := mkPipeline None None (Some 4) in
  let r := run_pipeline quiet (mkConfig "prod" true [] None) [] 0 p
             [SetupReturned] in
  promise r = None
  ∧ count is_teardown (calls r) = 0
  ∧ calls r = [OnFinish 4; CallSetup (mkConfig "prod" true [] None) [] 0 p]
  ∧ ¬ completes_immediately r.
Proof.
  split; [reflexivity |]. split; [reflexivity |]. split; [reflexivity |].
  intros [H _]. discriminate H.
Qed.

End PipesFacts.

(** ** More on [runScript] *)

Module ScriptLaws.

Import Script Reading ScriptFacts.

Lemma valid_stage_true s :
  valid_stage s = true ↔ s ∈ ["int"; "staging"; "prod"].
Proof. unfold valid_stage. apply bool_decide_eq_true. Qed.

Lemma truthy_string s : truthy (VStr s) = true ↔ s ≠ "".
Proof.
  simpl. unfold eqb_string. rewrite negb_true_iff, bool_decide_eq_false. done.
Qed.

Lemma runScript_accepted f d v proc opt stage profile :
  opt_stage opt = Some stage →
  aws_profile stage = Some profile →
  accepts v opt = true →
  runScript f d v proc opt
  = let dryRun := parse_dryRun (opt_dryRun opt) in
    let config := mkConfig stage dryRun (opt_argv opt)
                    (<["AWS_PROFILE" := profile]> (env proc) !! "PWD") in
    mkOutcome Returned (<["AWS_PROFILE" := profile]> (env proc))
      ([SetEnv "AWS_PROFILE" profile; ValidateArgs (opt_argv opt) dryRun;
        NewConfig config; CallScript config (opt_argv opt)]
         ++ fst (f config (opt_argv opt))
         ++ report (snd (f config (opt_argv opt)))).
Proof.
  intros Hs Hp. unfold accepts, runScript. rewrite Hs. cbn [of_option to_string].
  rewrite !andb_true_iff, negb_true_iff. intros [[-> ->] ->]. cbn [negb].
  unfold set_profile. rewrite Hp. cbn zeta.
  by destruct (f _ _) as [cs fate].
Qed.

Lemma accepted_profile v opt :
  accepts v opt = true →
  ∃ stage profile, opt_stage opt = Some stage ∧ aws_profile stage = Some profile
                   ∧ stage ∈ ["int"; "staging"; "prod"].
Proof.
  unfold accepts. rewrite !andb_true_iff. intros [[Ht Hv] _].
  destruct (opt_stage opt) as [s |]; [| done]. cbn in Hv.
  apply valid_stage_true in Hv.
  destruct (stage_cases s Hv) as [-> | [-> | ->]]; eauto.
Qed.

Lemma rejected_cases v opt :
  accepts v opt = false →
  (opt_stage opt = None ∨ opt_stage opt = Some "")
  ∨ (∃ s, opt_stage opt = Some s ∧ s ≠ "" ∧ s ∉ ["int"; "staging"; "prod"])
  ∨ (∃ s msg, opt_stage opt = Some s ∧ s ∈ ["int"; "staging"; "prod"]
              ∧ v (opt_argv opt) (parse_dryRun (opt_dryRun opt)) = Some msg
              ∧ msg ≠ "").
Proof.
  unfold accepts. destruct (opt_stage opt) as [s |]; [| by left; left].
  cbn [of_option to_string].
  destruct (decide (s = "")) as [-> | Hne]; [by left; right |].
  rewrite (proj2 (truthy_string s) Hne). cbn [andb].
  destruct (valid_stage s) eqn:Hv.
  - apply valid_stage_true in Hv. cbn [andb]. rewrite negb_false_iff.
    destruct (v (opt_argv opt) (parse_dryRun (opt_dryRun opt))) as [msg |];
      [| done].
    cbn [of_option]. rewrite truthy_string. intros Hm.
    right; right. by exists s, msg.
  - intros _. right; left. exists s. split; [done |]. split; [done |].
    rewrite <- valid_stage_true. by rewrite Hv.
Qed.

Lemma runScript_rejected f d v proc opt :
  accepts v opt = false →
  (∀ c, NewConfig c ∉ trace (runScript f d v proc opt))
  ∧ (∀ f', runScript f' d v proc opt = runScript f d v proc opt).
Proof.
  intros Hrej. unfold accepts in Hrej. unfold runScript.
  destruct (truthy (of_option (opt_stage opt))); cbn [negb];
    [| split; [intros c; cbn [trace]; not_in_trace | done]].
  destruct (valid_stage (to_string (of_option (opt_stage opt)))); cbn [negb];
    [| split; [intros c; cbn [trace]; apply not_elem_of_nil | done]].
  cbn [andb] in Hrej. rewrite negb_false_iff in Hrej. rewrite Hrej.
  destruct (set_profile _ _) as [env1 t1] eqn:Hsp.
  split; [| done]. intros c. unfold set_profile in Hsp.
  destruct (aws_profile _); simplify_eq; cbn; not_in_trace.
Qed.

Lemma runScript_with_returning f d v proc opt :
  runScript_with (returning_script f) d (returning_validator v) proc opt
  = runScript f d v proc opt.
Proof.
  unfold runScript_with, runScript, returning_script, returning_validator.
  destruct (truthy (of_option (opt_stage opt))); cbn [negb]; [| done].
  destruct (valid_stage _); cbn [negb]; [| done].
  destruct (set_profile _ _) as [env1 t1].
  destruct (truthy (of_option (v _ _))); [done |].
  by destruct (f _ _) as [cs fate].
Qed.

(** [runScript] throws in exactly three cases: the stage is given but is
    not 'int', 'staging' or 'prod'; the validator throws (line 60 is not
    in a [try]); the script function itself throws before it has returned
    its promise (line 160 catches rejections only).  A rejected promise of
    the script never makes it throw.  With callbacks that return, the
    function is [runScript] as modelled above. *)
Theorem runScript_throws_exactly_when f d v proc opt e :
  (completion (runScript_with f d v proc opt) = Threw e
   ↔ (∃ s, opt_stage opt = Some s ∧ s ≠ "" ∧ (s ∉ ["int"; "staging"; "prod"])
           ∧ e = mkError ("Invalid stage " +:+ s))
     ∨ (∃ s, opt_stage opt = Some s ∧ s ∈ ["int"; "staging"; "prod"]
             ∧ v (opt_argv opt) (parse_dryRun (opt_dryRun opt)) = Thrown e)
     ∨ (∃ s result,
          opt_stage opt = Some s ∧ s ∈ ["int"; "staging"; "prod"]
          ∧ v (opt_argv opt) (parse_dryRun (opt_dryRun opt)) = Normal result
          ∧ truthy (of_option result) = false
          ∧ snd (f (mkConfig s (parse_dryRun (opt_dryRun opt)) (opt_argv opt)
                      (env proc !! "PWD")) (opt_argv opt))
            = Thrown e))
  ∧ (∀ f0 v0,
       f = returning_script f0 → v = returning_validator v0 →
       runScript_with f d v proc opt = runScript f0 d v0 proc opt).
Proof.
  split; [| intros f0 v0 -> ->; apply runScript_with_returning].
  unfold runScript_with.
  destruct (opt_stage opt) as [s |]; cbn [of_option to_string];
    [| split; [done | intros [(? & ? & _) | [(? & ? & _) | (? & ? & ? & _)]]; done]].
  destruct (decide (s = "")) as [-> | Hne].
  { split; [done |].
    intros [(? & [= <-] & ? & _) | [(? & [= <-] & Hin & _)
                                   | (? & ? & [= <-] & Hin & _)]];
      [done | |]; apply stage_cases in Hin; intuition discriminate. }
  rewrite (proj2 (truthy_string s) Hne). cbn [negb].
  destruct (valid_stage s) eqn:Hv; cbn [negb].
  - apply valid_stage_true in Hv.
    assert (∃ profile, set_profile s (env proc)
                       = (<["AWS_PROFILE" := profile]> (env proc),
                          [SetEnv "AWS_PROFILE" profile])) as [profile ->].
    { unfold set_profile.
      destruct (stage_cases s Hv) as [-> | [-> | ->]]; eexists; reflexivity. }
    rewrite lookup_insert_ne by done.
    destruct (v (opt_argv opt) (parse_dryRun (opt_dryRun opt)))
      as [result | e'] eqn:Ev.
    + destruct (truthy (of_option result)) eqn:Et.
      * split; [done |].
        intros [(? & [= <-] & ? & Hout & _) | [(? & _ & _ & [=])
                                              | (? & ? & _ & _ & [= <-] & ? & _)]];
          [done | congruence].
      * destruct (f _ (opt_argv opt)) as [cs [fate | e']] eqn:Ef; cbn [completion snd].
        -- split; [done |].
           intros [(? & [= <-] & ? & Hout & _) | [(? & _ & _ & [=])
                                                 | (? & ? & [= <-] & _ & _ & _ & Hf)]];
             [done |]. rewrite Ef in Hf. done.
        -- split.
           ++ intros [= ->]. right; right. exists s, result.
              rewrite Ef. done.
           ++ intros [(? & [= <-] & ? & Hout & _) | [(? & _ & _ & [=])
                                                    | (? & ? & [= <-] & _ & _ & _ & Hf)]];
                [done |]. rewrite Ef in Hf. cbn in Hf. congruence.
    + cbn [completion]. split.
      * intros [= ->]. right; left. by exists s.
      * intros [(? & [= <-] & ? & Hout & _) | [(? & _ & _ & [= ->])
                                               | (? & ? & _ & _ & [=] & _)]];
          done.
  - cbn [completion]. split.
    + intros [= <-]. left. exists s. repeat split; [done |].
      rewrite <- valid_stage_true. by rewrite Hv.
    + intros [(? & [= <-] & _ & _ & ->) | [(? & [= <-] & Hin & _)
                                          | (? & ? & [= <-] & Hin & _)]];
        [done | |]; apply valid_stage_true in Hin; congruence.
Qed.

Lemma runScript_throws_exactly_when_witness :
  completion
    (runScript_with
       (fun _ _ => ([], Thrown (mkError "TypeError: rows is not iterable"))) ""
       (returning_validator noValidation) (mkProcess "node" "job.js" ∅)
       (mkOptions (Some "prod") None []))
  = Threw (mkError "TypeError: rows is not iterable")
  ∧ runScript_with
      (returning_script (fun _ _ => ([], RejectedWith (mkError "script failed"))))
      "" (returning_validator noValidation) (mkProcess "node" "job.js" ∅)
      (mkOptions (Some "prod") None [])
    = runScript (fun _ _ => ([], RejectedWith (mkError "script failed"))) ""
        noValidation (mkProcess "node" "job.js" ∅)
        (mkOptions (Some "prod") None []).
Proof.
  split.
  - apply (proj1 (runScript_throws_exactly_when
                    (fun _ _ => ([], Thrown (mkError "TypeError: rows is not iterable")))
                    "" (returning_validator noValidation)
                    (mkProcess "node" "job.js" ∅)
                    (mkOptions (Some "prod") None [])
                    (mkError "TypeError: rows is not iterable"))).
    right; right. exists "prod", None.
    repeat split. rewrite !elem_of_cons. tauto.
  - apply (proj2 (runScript_throws_exactly_when
                    (returning_script
                       (fun _ _ => ([], RejectedWith (mkError "script failed"))))
                    "" (returning_validator noValidation)
                    (mkProcess "node" "job.js" ∅)
                    (mkOptions (Some "prod") None [])
                    (mkError "script failed")));
      reflexivity.
Defined.

(** The only variable of the process environment that [runScript] writes
    is [AWS_PROFILE]: every other variable is left as it was, and nothing
    at all is written when the stage is missing or invalid. *)
Theorem runScript_writes_only_aws_profile f d v proc opt name :
  name ≠ "AWS_PROFILE" →
  final_env (runScript f d v proc opt) !! name = env proc !! name
  ∧ (valid_stage (to_string (of_option (opt_stage opt))) = false →
     final_env (runScript f d v proc opt) = env proc).
Proof.
  intros Hname. unfold runScript.
  destruct (truthy (of_option (opt_stage opt))) eqn:Ht; cbn [negb].
  - destruct (valid_stage _) eqn:Hv; cbn [negb]; [| done].
    split; [| done]. unfold set_profile.
    destruct (aws_profile _) as [p |]; cbv beta iota zeta;
      (destruct (truthy (of_option (v _ _))); [| destruct (f _ _)]);
      cbn [final_env]; by rewrite ?lookup_insert_ne.
  - done.
Qed.

Lemma runScript_writes_only_aws_profile_witness :
  final_env
    (runScript (fun _ _ => ([], Fulfilled)) "" noValidation
       (mkProcess "node" "job.js" {["PWD" := "/work"; "AWS_PROFILE" := "mine"]})
       (mkOptions (Some "prod") None [])) !! "PWD"
  = Some "/work".
Proof.
  rewrite (proj1 (runScript_writes_only_aws_profile
                    (fun _ _ => ([], Fulfilled)) "" noValidation
                    (mkProcess "node" "job.js"
                       {["PWD" := "/work"; "AWS_PROFILE" := "mine"]})
                    (mkOptions (Some "prod") None []) "PWD" ltac:(discriminate))).
  reflexivity.
Defined.

(** When one of the three guards rejects the arguments, the script
    function is not consulted at all: the whole outcome is the same for
    every script, and no [Config] is built. *)
Theorem rejected_arguments_never_reach_the_script f f' d v proc opt :
  accepts v opt = false →
  runScript f d v proc opt = runScript f' d v proc opt
  ∧ (∀ c, NewConfig c ∉ trace (runScript f d v proc opt))
  ∧ ((opt_stage opt = None ∨ opt_stage opt = Some "")
     ∨ (∃ s, opt_stage opt = Some s ∧ s ≠ ""
             ∧ s ∉ ["int"; "staging"; "prod"])
     ∨ (∃ s msg, opt_stage opt = Some s ∧ s ∈ ["int"; "staging"; "prod"]
                 ∧ v (opt_argv opt) (parse_dryRun (opt_dryRun opt)) = Some msg
                 ∧ msg ≠ "")).
Proof.
  intros Hrej. destruct (runScript_rejected f d v proc opt Hrej) as [Hno Hsame].
  split; [by rewrite (Hsame f') |]. split; [exact Hno |].
  by apply rejected_cases.
Qed.

Lemma rejected_arguments_never_reach_the_script_witness :
  runScript (fun _ _ => ([Resolve], Fulfilled)) "FILE"
    (fun args _ => if bool_decide (args = []) then Some "no file" else None)
    (mkProcess "node" "job.js" ∅) (mkOptions (Some "int") None [])
  = runScript (fun _ _ => ([], Pending)) "FILE"
      (fun args _ => if bool_decide (args = []) then Some "no file" else None)
      (mkProcess "node" "job.js" ∅) (mkOptions (Some "int") None []).
Proof.
  apply (rejected_arguments_never_reach_the_script
           (fun _ _ => ([Resolve], Fulfilled)) (fun _ _ => ([], Pending)) "FILE"
           (fun args _ => if bool_decide (args = []) then Some "no file" else None)
           (mkProcess "node" "job.js" ∅) (mkOptions (Some "int") None [])).
  reflexivity.
Defined.

(** When the arguments are accepted, the script is called once, with the
    positional arguments that were validated and with a [Config] that holds
    the stage, the validated dry-run flag, those arguments and the [PWD] of
    the environment as it was before [AWS_PROFILE] was written; a rejection
    of the script's promise is printed after the script's own calls. *)
Theorem script_receives_validated_arguments f d v proc opt :
  accepts v opt = true →
  ∃ stage profile c,
    opt_stage opt = Some stage
    ∧ aws_profile stage = Some profile
    ∧ c = mkConfig stage (parse_dryRun (opt_dryRun opt)) (opt_argv opt)
            (env proc !! "PWD")
    ∧ runScript f d v proc opt
      = mkOutcome Returned (<["AWS_PROFILE" := profile]> (env proc))
          ([SetEnv "AWS_PROFILE" profile;
            ValidateArgs (cfg_argv c) (cfg_dryRun c);
            NewConfig c; CallScript c (cfg_argv c)]
             ++ fst (f c (cfg_argv c)) ++ report (snd (f c (cfg_argv c)))).
Proof.
  intros Hacc. destruct (accepted_profile v opt Hacc) as (stage & profile & Hs & Hp & _).
  exists stage, profile, (mkConfig stage (parse_dryRun (opt_dryRun opt))
                            (opt_argv opt) (env proc !! "PWD")).
  split; [done |]. split; [done |]. split; [done |].
  rewrite (runScript_accepted f d v proc opt stage profile Hs Hp Hacc).
  cbn zeta. by rewrite lookup_insert_ne.
Qed.

Lemma script_receives_validated_arguments_witness :
  trace
    (runScript (fun c args => ([], RejectedWith (mkError (cfg_stage c)))) ""
       noValidation (mkProcess "node" "job.js" {["PWD" := "/work"]})
       (mkOptions (Some "staging") (Some "False") ["a.csv"]))
  = [SetEnv "AWS_PROFILE" "classy-test"; ValidateArgs ["a.csv"] false;
     NewConfig (mkConfig "staging" false ["a.csv"] (Some "/work"));
     CallScript (mkConfig "staging" false ["a.csv"] (Some "/work")) ["a.csv"];
     ConsoleErrorValue (mkError "staging")].
Proof.
  destruct (script_receives_validated_arguments
              (fun c args => ([], RejectedWith (mkError (cfg_stage c)))) ""
              noValidation (mkProcess "node" "job.js" {["PWD" := "/work"]})
              (mkOptions (Some "staging") (Some "False") ["a.csv"]) eq_refl)
    as (stage & profile & c & Hs & Hp & -> & ->).
  cbn in Hs. injection Hs as <-. cbn in Hp. injection Hp as <-. reflexivity.
Defined.

Lemma lower_char_idem c : lower_char (lower_char c) = lower_char c.
Proof. destruct c as [[] [] [] [] [] [] [] []]; reflexivity. Qed.

Lemma toLower_idem s : toLower (toLower s) = toLower s.
Proof.
  induction s as [| c s IH]; [done |]. simpl. by rewrite lower_char_idem, IH.
Qed.

Lemma toLower_length s : String.length (toLower s) = String.length s.
Proof. induction s as [| c s IH]; [done |]. simpl. by rewrite IH. Qed.

(** Dry run is the default and is switched off only by an option that
    spells 'false' in some mix of upper and lower case: the flag depends
    on the option's lower-cased form alone, and any other value, 'no', '0'
    or the empty string included, leaves dry run on. *)
Theorem dry_run_unless_false o :
  (parse_dryRun o = false ↔ ∃ s, o = Some s ∧ toLower s = "false")
  ∧ (∀ s, parse_dryRun (Some (toLower s)) = parse_dryRun (Some s))
  ∧ (∀ s, o = Some s → String.length s ≠ 5 → parse_dryRun o = true).
Proof.
  assert (∀ o', parse_dryRun o' = false
                ↔ ∃ s, o' = Some s ∧ toLower s = "false") as Hiff.
  { intros o'. unfold parse_dryRun, eqb_string.
    rewrite negb_false_iff, bool_decide_eq_true. destruct o' as [s |]; simpl.
    - split; [by exists s | by intros (? & [= <-] & ?)].
    - split; [done | by intros (? & ? & _)]. }
  split; [apply Hiff |]. split.
  - intros s. unfold parse_dryRun. simpl. by rewrite toLower_idem.
  - intros s -> Hlen. destruct (parse_dryRun (Some s)) eqn:E; [done |].
    apply Hiff in E as (s' & [= <-] & Hlow).
    rewrite <- toLower_length, Hlow in Hlen. done.
Qed.

Lemma dry_run_unless_false_witness :
  parse_dryRun (Some "FALSE") = false ∧ parse_dryRun (Some "no") = true.
Proof.
  split.
  - apply (dry_run_unless_false (Some "FALSE")). by exists "FALSE".
  - apply (proj2 (proj2 (dry_run_unless_false (Some "no"))) "no" eq_refl).
    discriminate.
Defined.

End ScriptLaws.

(** ** More on the ScriptEnvironment source *)

Module ScriptEnvironmentLaws.

Import ScriptEnvironment Reading.

Lemma load_section existsSync merge read file stage environment :
  load merge existsSync read file stage environment
  = if existsSync file then
      match section_of read file stage with
      | Normal (Some section) => Normal (merge environment section)
      | Normal None => Normal environment
      | Thrown e => Thrown e
      end
    else Normal environment.
Proof.
  unfold load, section_of. destruct (existsSync file); [| done].
  destruct (read file) as [v | e]; [| done]. by destruct (truthy v).
Qed.

(** [initialize] is all or nothing: it fails exactly when a file that
    exists cannot be read, and then leaves the state as it was.  The JSON
    file comes first: its exception is the one reported when its read
    throws, and the exception of the YAML file is reported only when the
    JSON file is missing or was read.  Otherwise [initialize] ends with an
    environment in place, the empty object when neither file exists. *)
Theorem initialize_all_or_nothing merge existsSync require yaml_load c st :
  match snd (initialize merge existsSync require yaml_load c st) with
  | Thrown e =>
      fst (initialize merge existsSync require yaml_load c st) = st
      ∧ ((existsSync (envJSONFile c) = true
          ∧ require (envJSONFile c) = Thrown e)
         ∨ ((existsSync (envJSONFile c) = false
             ∨ ∃ v, require (envJSONFile c) = Normal v)
            ∧ existsSync (envYAMLFile c) = true
            ∧ yaml_load (envYAMLFile c) = Thrown e))
  | Normal _ =>
      (∃ environment,
         fst (initialize merge existsSync require yaml_load c st)
         = Some environment)
      ∧ (existsSync (envJSONFile c) = true →
         ∃ v, require (envJSONFile c) = Normal v)
      ∧ (existsSync (envYAMLFile c) = true →
         ∃ v, yaml_load (envYAMLFile c) = Normal v)
      ∧ (existsSync (envJSONFile c) = false →
         existsSync (envYAMLFile c) = false →
         fst (initialize merge existsSync require yaml_load c st)
         = Some (VObj []))
  end.
Proof.
  unfold initialize.
  fold (envJSONFile c). fold (envYAMLFile c).
  generalize (envJSONFile c) (envYAMLFile c). intros fj fy. unfold load.
  repeat first
    [ progress cbv beta iota
    | progress cbn [fst snd]
    | match goal with
      | |- context [if existsSync ?f then _ else _] =>
          destruct (existsSync f) eqn:?
      | |- context [if truthy ?v then _ else _] => destruct (truthy v)
      | |- context [match require ?f with _ => _ end] =>
          destruct (require f) eqn:?
      | |- context [match yaml_load ?f with _ => _ end] =>
          destruct (yaml_load f) eqn:?
      end ];
    repeat split; intros; try discriminate; eauto 10.
Qed.

Lemma initialize_all_or_nothing_witness :
  let broken := mkError "YAMLException: bad indentation" in
  let before := Some (VObj [("region", VStr "us-east-1")]) in
  fst (initialize merge_fields (fun _ => true)
         (fun _ => Normal (VObj [("prod", VObj [("region", VStr "eu-west-1")])]))
         (fun _ => Thrown broken) (mkConfig "prod" true [] (Some "/work"))
         before)
  = before.
Proof.
  intros broken before.
  pose proof (initialize_all_or_nothing merge_fields (fun _ => true)
    (fun _ => Normal (VObj [("prod", VObj [("region", VStr "eu-west-1")])]))
    (fun _ => Thrown broken) (mkConfig "prod" true [] (Some "/work")) before)
    as H.
  cbn [snd] in H. destruct H as [Hstate _]. exact Hstate.
Defined.

Ltac initialize_cases existsSync require yaml_load :=
  repeat first
    [ progress cbv beta iota
    | progress cbn [fst snd]
    | match goal with
      | |- context [if existsSync ?f then _ else _] =>
          destruct (existsSync f) eqn:?
      | |- context [match require ?f with _ => _ end] =>
          destruct (require f) eqn:?
      | |- context [match yaml_load ?f with _ => _ end] =>
          destruct (yaml_load f) eqn:?
      | |- context [if truthy ?v then _ else _] => destruct (truthy v)
      end ].

(** A successful [initialize] builds the environment from the empty
    object: whatever environment was there before is forgotten, so running
    it again on the same files gives the same state. *)
Theorem initialize_starts_from_scratch merge existsSync require yaml_load c st st' :
  snd (initialize merge existsSync require yaml_load c st) = Normal tt →
  initialize merge existsSync require yaml_load c st'
  = initialize merge existsSync require yaml_load c st.
Proof.
  unfold initialize.
  generalize (to_string (dir c) +:+ "/environment.json")
             (to_string (dir c) +:+ "/env.yml").
  intros fj fy. unfold load.
  initialize_cases existsSync require yaml_load; intros; done.
Qed.

Lemma initialize_starts_from_scratch_witness :
  let json := VObj [("int", VObj [("region", VStr "us-east-1")])] in
  let c := mkConfig "int" true [] (Some "/work") in
  initialize merge_fields (fun file => eqb_string file "/work/environment.json")
    (fun _ => Normal json) (fun _ => Normal VNull) c
    (Some (VObj [("stale", VBool true)]))
  = (Some (VObj [("region", VStr "us-east-1")]), Normal tt).
Proof.
  intros json c.
  rewrite (initialize_starts_from_scratch merge_fields
             (fun file => eqb_string file "/work/environment.json")
             (fun _ => Normal json) (fun _ => Normal VNull) c None
             (Some (VObj [("stale", VBool true)])) eq_refl).
  reflexivity.
Defined.

(** Only the section of the stage is taken from a file: two file systems
    whose files hold the same section for the stage of the [Config] (and
    fail alike) leave the same environment, whatever the sections of the
    other stages hold. *)
Theorem initialize_reads_only_its_stage merge existsSync require require'
    yaml_load yaml_load' c st :
  section_of require (envJSONFile c) (cfg_stage c)
  = section_of require' (envJSONFile c) (cfg_stage c) →
  section_of yaml_load (envYAMLFile c) (cfg_stage c)
  = section_of yaml_load' (envYAMLFile c) (cfg_stage c) →
  initialize merge existsSync require yaml_load c st
  = initialize merge existsSync require' yaml_load' c st.
Proof.
  unfold initialize. fold (envJSONFile c). fold (envYAMLFile c).
  generalize (envJSONFile c) (envYAMLFile c). intros fj fy Hj Hy.
  rewrite !load_section, Hj.
  destruct (existsSync fj), (section_of require' fj (cfg_stage c))
    as [[s1 |] | e]; try done;
    rewrite !load_section, Hy; done.
Qed.

Lemma initialize_reads_only_its_stage_witness :
  let c := mkConfig "int" true [] (Some "/work") in
  let only_json file := eqb_string file "/work/environment.json" in
  initialize merge_fields only_json
    (fun _ => Normal (VObj [("int", VObj [("region", VStr "us-east-1")]);
                            ("prod", VObj [("region", VStr "eu-west-1")])]))
    (fun _ => Normal VNull) c None
  = initialize merge_fields only_json
      (fun _ => Normal (VObj [("int", VObj [("region", VStr "us-east-1")])]))
      (fun _ => Normal VNull) c None.
Proof.
  intros c only_json.
  apply (initialize_reads_only_its_stage merge_fields only_json); reflexivity.
Defined.

(** [get] never answers [undefined], with one exception: the key 'dir'
    when the process has no [PWD].  Every other key gets a defined answer,
    [null] at the least, initialised or not. *)
Theorem get_is_undefined_only_for_dir baseGet c st key :
  get baseGet c st key = VUndefined ↔ key = "dir" ∧ cfg_dir c = None.
Proof.
  unfold get, eqb_string.
  destruct (decide (key = "stage")) as [-> | H1]; [by split; [| intros []] |].
  rewrite (bool_decide_eq_false_2 _ H1).
  destruct (decide (key = "dryRun")) as [-> | H2]; [by split; [| intros []] |].
  rewrite (bool_decide_eq_false_2 _ H2).
  destruct (decide (key = "args")) as [-> | H3]; [by split; [| intros []] |].
  rewrite (bool_decide_eq_false_2 _ H3).
  destruct (decide (key = "dir")) as [-> | H4].
  - rewrite bool_decide_eq_true_2 by done. unfold dir.
    destruct (cfg_dir c); cbn; split; [done | by intros [] | done | done].
  - rewrite (bool_decide_eq_false_2 _ H4). unfold lodash_get.
    split; [| by intros []].
    destruct (is_nullish (default VUndefined st)); cbn; [done |].
    destruct (baseGet (default VUndefined st) key); cbn; done.
Qed.

Lemma get_is_undefined_only_for_dir_witness :
  get own_property (mkConfig "int" true [] None) None "dir" = VUndefined.
Proof.
  apply (get_is_undefined_only_for_dir own_property
           (mkConfig "int" true [] None) None "dir").
  by split.
Defined.

End ScriptEnvironmentLaws.

(** ** More on the LocalDBFactories source *)

Module LocalDBFactoriesLaws.

Import LocalDBFactories Reading LocalDBFactoriesFacts.

Ltac stage_cases stage :=
  destruct (strict_eq_str stage "prod") eqn:Ep;
    [apply strict_eq_str_true in Ep as -> |
     destruct (strict_eq_str stage "staging") eqn:Es;
       [apply strict_eq_str_true in Es as -> |]].

(** [initialize] succeeds exactly when the stage is 'prod' or 'staging' and
    both credential lookups return; it then stores the port of the stage
    and the credentials as they came, with no check on them (a credential
    that is missing, [undefined], is stored like any other). *)
Theorem initialize_succeeds_exactly_when config_get st st' :
  initialize config_get st = (st', Normal tt)
  ↔ ∃ prt u p,
      ((config_get "stage" = Normal (VStr "prod") ∧ prt = 9306%Z)
       ∨ (config_get "stage" = Normal (VStr "staging") ∧ prt = 8306%Z))
      ∧ config_get "CLASSY_DB_USERNAME" = Normal u
      ∧ config_get "CLASSY_DB_PASSWORD" = Normal p
      ∧ st' = mkState (VNum prt) u p.
Proof.
  unfold initialize. split.
  - destruct (config_get "stage") as [stage | e]; [| done].
    stage_cases stage; cbn [is_undefined]; [| | done].
    + destruct (config_get "CLASSY_DB_USERNAME") as [u | e]; [| done].
      destruct (config_get "CLASSY_DB_PASSWORD") as [p | e]; [| done].
      intros [= <-]. exists 9306%Z, u, p. auto.
    + destruct (config_get "CLASSY_DB_USERNAME") as [u | e]; [| done].
      destruct (config_get "CLASSY_DB_PASSWORD") as [p | e]; [| done].
      intros [= <-]. exists 8306%Z, u, p. auto.
  - intros (prt & u & p & [[-> ->] | [-> ->]] & -> & -> & ->); done.
Qed.

Lemma initialize_succeeds_exactly_when_witness :
  initialize
    (fun key => Normal (if eqb_string key "stage" then VStr "staging"
                        else VUndefined)) fresh
  = (mkState (VNum 8306) VUndefined VUndefined, Normal tt).
Proof.
  apply (initialize_succeeds_exactly_when
           (fun key => Normal (if eqb_string key "stage" then VStr "staging"
                               else VUndefined)) fresh).
  exists 8306%Z, VUndefined, VUndefined.
  split; [right; split; reflexivity |]. repeat split.
Defined.

(** After a successful [initialize], [get 'stayClassyDB'] builds its pool
    for host 127.0.0.1 and database stayclassy with a limit of 25
    connections, on port 9306 for 'prod' and 8306 for 'staging', with the
    user and password that the [Config] answered; what the state held
    before [initialize] plays no part. *)
Theorem pool_built_from_config config_get st st' h :
  initialize config_get st = (st', Normal tt) →
  ∃ db,
    get st' "stayClassyDB" h = (h ++ [db], VRef (length h))
    ∧ connectionLimit db = 25%Z ∧ host db = "127.0.0.1"
    ∧ database db = "stayclassy"
    ∧ config_get "CLASSY_DB_USERNAME" = Normal (pool_user db)
    ∧ config_get "CLASSY_DB_PASSWORD" = Normal (pool_password db)
    ∧ ((config_get "stage" = Normal (VStr "prod") ∧ pool_port db = VNum 9306)
       ∨ (config_get "stage" = Normal (VStr "staging")
          ∧ pool_port db = VNum 8306)).
Proof.
  unfold initialize.
  destruct (config_get "stage") as [stage | e]; [| done].
  stage_cases stage; cbn [is_undefined]; [| | done];
    (destruct (config_get "CLASSY_DB_USERNAME") as [u | e]; [| done]);
    (destruct (config_get "CLASSY_DB_PASSWORD") as [p | e]; [| done]);
    intros [= <-]; eexists; (split; [reflexivity |]); cbn; auto 10.
Qed.

Lemma pool_built_from_config_witness :
  let config_get key :=
    Normal (if eqb_string key "stage" then VStr "prod"
            else if eqb_string key "CLASSY_DB_USERNAME" then VStr "reader"
            else VStr "s3cret") in
  ∃ db, get (fst (initialize config_get (mkState VNull VNull VNull)))
          "stayClassyDB" []
        = ([db], VRef 0)
        ∧ pool_port db = VNum 9306 ∧ pool_user db = VStr "reader".
Proof.
  intros config_get.
  destruct (pool_built_from_config config_get (mkState VNull VNull VNull)
              (fst (initialize config_get (mkState VNull VNull VNull))) []
              eq_refl)
    as (db & Hget & _ & _ & _ & Hu & _ & [[_ Hp] | [Hs _]]).
  - exists db. split; [exact Hget |]. split; [exact Hp |].
    cbn in Hu. by injection Hu as <-.
  - discriminate Hs.
Defined.

(** [initialize] is not all or nothing: when a credential lookup throws,
    the exception is passed on, but the port of the stage, and the user if
    it was already read, stay stored in the state. *)
Theorem failed_credentials_leave_port_behind config_get st e :
  config_get "stage" = Normal (VStr "prod")
  ∨ config_get "stage" = Normal (VStr "staging") →
  ∃ prt,
    ((config_get "stage" = Normal (VStr "prod") ∧ prt = VNum 9306)
     ∨ (config_get "stage" = Normal (VStr "staging") ∧ prt = VNum 8306))
    ∧ (config_get "CLASSY_DB_USERNAME" = Thrown e →
       initialize config_get st
       = (mkState prt (user st) (password st), Thrown e))
    ∧ (∀ u, config_get "CLASSY_DB_USERNAME" = Normal u →
            config_get "CLASSY_DB_PASSWORD" = Thrown e →
            initialize config_get st = (mkState prt u (password st), Thrown e)).
Proof.
  unfold initialize. intros [Hs | Hs]; rewrite Hs.
  - exists (VNum 9306). split; [by left |].
    split; [intros -> | intros u -> ->]; reflexivity.
  - exists (VNum 8306). split; [by right |].
    split; [intros -> | intros u -> ->]; reflexivity.
Qed.

Lemma failed_credentials_leave_port_behind_witness :
  initialize
    (fun key => if eqb_string key "stage" then Normal (VStr "prod")
                else Thrown (mkError "credstash: not found")) fresh
  = (mkState (VNum 9306) VUndefined VUndefined,
     Thrown (mkError "credstash: not found")).
Proof.
  destruct (failed_credentials_leave_port_behind
              (fun key => if eqb_string key "stage" then Normal (VStr "prod")
                          else Thrown (mkError "credstash: not found"))
              fresh (mkError "credstash: not found") (or_introl eq_refl))
    as (prt & [[_ ->] | [Hs _]] & Huser & _).
  - apply Huser. reflexivity.
  - discriminate Hs.
Defined.

(** Over any sequence of lookups, [get] creates one pool for each request
    of 'stayClassyDB' and nothing else: the pools that existed are kept as
    they were, the new ones are all built from the same options, and the
    requests are answered with consecutive fresh addresses, so no two
    requests ever share a pool. *)
Theorem pools_are_never_reused st keys h :
  let n := length (List.filter asks_for_pool keys) in
  fst (get_all st keys h) = h ++ replicate n (pool_of st)
  ∧ addresses (snd (get_all st keys h)) = seq (length h) n
  ∧ NoDup (addresses (snd (get_all st keys h)))
  ∧ length (snd (get_all st keys h)) = length keys.
Proof.
  cbn zeta.
  assert (fst (get_all st keys h)
          = h ++ replicate (length (List.filter asks_for_pool keys)) (pool_of st)
          ∧ addresses (snd (get_all st keys h))
            = seq (length h) (length (List.filter asks_for_pool keys))
          ∧ length (snd (get_all st keys h)) = length keys) as (H1 & H2 & H3).
  { revert h. induction keys as [| key keys IH]; intros h.
    - simpl. by rewrite app_nil_r.
    - cbn [get_all List.filter]. unfold get.
      change (eqb_string key "stayClassyDB") with (asks_for_pool key).
      destruct (asks_for_pool key).
      + fold (pool_of st). specialize (IH (h ++ [pool_of st])).
        destruct (get_all st keys (h ++ [pool_of st])) as [h2 vs].
        cbn [fst snd length addresses] in *. destruct IH as (-> & -> & ->).
        rewrite length_app. cbn [length replicate seq].
        rewrite <- app_assoc.
        by replace (length h + 1) with (S (length h)) by lia.
      + specialize (IH h). destruct (get_all st keys h) as [h2 vs].
        cbn [fst snd length addresses] in *. by destruct IH as (-> & -> & ->). }
  repeat split; [done | done | | done]. rewrite H2. apply NoDup_seq.
Qed.

End LocalDBFactoriesLaws.

(** ** More on [runPipes] *)

Module PipesLaws.

Import Pipes PipesSpec Reading PipesFacts.

Lemma pipe_trace_prefix W l :
  ∃ rest, l = pipes_in (fst (pipe_trace W l)) ++ rest
          ∧ (snd (pipe_trace W l) = None → rest = [])
          ∧ (rest ≠ [] → ∃ e, snd (pipe_trace W l) = Some e).
Proof.
  induction l as [| [a b] l (rest & Hl & Hnone & Hsome)]; simpl.
  - by exists [].
  - destruct (pipe_throws W a b) as [e |]; simpl.
    + exists l. split; [done |]. split; [done | eauto].
    + destruct (pipe_trace W l) as [t o]. simpl in *. exists rest.
      split; [by rewrite <- Hl | done].
Qed.

Lemma pipe_trace_last W l e :
  snd (pipe_trace W l) = Some e →
  ∃ a b, last (pipes_in (fst (pipe_trace W l))) = Some (a, b)
         ∧ pipe_throws W a b = Some e.
Proof.
  induction l as [| [a b] l IH]; simpl; [done |].
  destruct (pipe_throws W a b) as [e' |] eqn:E; simpl.
  - intros [= ->]. by exists a, b.
  - destruct (pipe_trace W l) as [t o]. simpl in *. intros Ho.
    destruct (IH Ho) as (a' & b' & Hlast & Hthrow). exists a', b'.
    split; [| done]. destruct (pipes_in t); [done |]. by rewrite last_cons_cons.
Qed.

Lemma pipe_trace_only_pipes W l ev :
  ev ∈ fst (pipe_trace W l) → ∃ a b, ev = Pipe a b.
Proof.
  induction l as [| [a b] l IH]; simpl; [by intros ?%elem_of_nil |].
  destruct (pipe_throws W a b); simpl.
  - rewrite list_elem_of_singleton. eauto.
  - destruct (pipe_trace W l) as [t o]. simpl in *.
    rewrite elem_of_cons. intros [-> | Hin]; eauto.
Qed.

Lemma run_pipes W config args ctx p sigs :
  pipes_in (calls (run_pipeline W config args ctx p sigs))
  = pipes_in (fst (pipe_trace W (adjacent (stages p)))).
Proof.
  destruct (run_shape W config args ctx p sigs) as (_ & -> & _).
  unfold expected_calls, wiring_error, wiring_calls.
  destruct (pipe_trace W (adjacent (stages p))) as [t [e |]]; cbn [fst snd].
  - rewrite pipes_in_app. simpl. by rewrite app_nil_r.
  - destruct (terminal p) as [s |].
    + destruct (on_throws W s);
        rewrite ?pipes_in_app; simpl; rewrite ?app_nil_r; [done |].
      by destruct (first_effective true s sigs) as [[| e] |];
        simpl; rewrite ?app_nil_r.
    + rewrite pipes_in_app. simpl. by rewrite app_nil_r.
Qed.

(** In every run, whatever throws and whatever the schedule, the [pipe]
    calls made are an initial part of the adjacent pairs of
    [[source, ...transforms, sink]], in that order: no pair is skipped or
    piped twice, and pairs are left out only in a run that is rejected. *)
Theorem pipes_follow_the_stages W config args ctx p sigs :
  let r := run_pipeline W config args ctx p sigs in
  pipes_in (calls r) `prefix_of` adjacent (stages p)
  ∧ (pipes_in (calls r) ≠ adjacent (stages p) →
     ∃ e, promise r = Some (Rejected e)
          ∧ count is_setup (calls r) = 0).
Proof.
  cbn zeta. rewrite run_pipes.
  destruct (pipe_trace_prefix W (adjacent (stages p)))
    as (rest & Hl & Hnone & Hsome).
  split; [by exists rest |].
  intros Hne. destruct Hsome as [e He].
  { intros ->. rewrite app_nil_r in Hl. by rewrite <- Hl in Hne. }
  exists e. destruct (run_shape W config args ctx p sigs) as (-> & -> & _).
  unfold outcome, expected_calls, wiring_error. rewrite He.
  split; [done |]. rewrite count_app, count_wiring_calls; [done |].
  by intros [].
Qed.

Lemma pipes_follow_the_stages_witness :
  let W := mkStreams (fun a _ => if (a =? 2)%nat then Some (mkError "closed")
                                 else None) (fun _ => None) in
  let r := run_pipeline W (mkConfig "prod" true [] None) [] 0
             (mkPipeline (Some 1) (Some [2; 3]) (Some 4)) [Finish 4] in
  pipes_in (calls r) = [(1, 2); (2, 3)]
  ∧ ∃ e, promise r = Some (Rejected e).
Proof.
  intros W r. split; [reflexivity |].
  destruct (proj2 (pipes_follow_the_stages W (mkConfig "prod" true [] None) [] 0
                     (mkPipeline (Some 1) (Some [2; 3]) (Some 4)) [Finish 4]))
    as (e & He & _); [discriminate |].
  by exists e.
Defined.

Lemma adjacent_upstreams l : (adjacent l).*1 = take (pred (length l)) l.
Proof.
  induction l as [| a [| b l] IH]; [done | done |].
  change (adjacent (a :: b :: l)) with ((a, b) :: adjacent (b :: l)).
  rewrite fmap_cons, IH. done.
Qed.

Lemma adjacent_downstreams l : (adjacent l).*2 = drop 1 l.
Proof.
  induction l as [| a [| b l] IH]; [done | done |].
  change (adjacent (a :: b :: l)) with ((a, b) :: adjacent (b :: l)).
  rewrite fmap_cons, IH. done.
Qed.

(** When wiring throws nothing, the pipeline is one chain: the upstream
    ends of the [pipe] calls are all the stages but the last, the
    downstream ends all the stages but the first, each once and in order;
    n stages are joined by n - 1 calls. *)
Theorem wiring_is_one_chain W config args ctx p sigs :
  wiring_error W p = None →
  let made := pipes_in (calls (run_pipeline W config args ctx p sigs)) in
  made.*1 = take (pred (length (stages p))) (stages p)
  ∧ made.*2 = drop 1 (stages p)
  ∧ length made = pred (length (stages p)).
Proof.
  intros Hw. cbn zeta. rewrite run_pipes.
  assert (snd (pipe_trace W (adjacent (stages p))) = None) as Hnone.
  { unfold wiring_error in Hw.
    by destruct (snd (pipe_trace W (adjacent (stages p)))). }
  rewrite (pipe_trace_complete W _ Hnone).
  rewrite adjacent_upstreams, adjacent_downstreams. repeat split.
  rewrite <- (length_fmap fst), adjacent_upstreams, length_take. lia.
Qed.

Lemma wiring_is_one_chain_witness :
  let made :=
    pipes_in (calls (run_pipeline quiet (mkConfig "prod" true [] None) [] 0
                       (mkPipeline (Some 1) (Some [2; 3]) (Some 4))
                       [SetupReturned])) in
  made.*1 = [1; 2; 3] ∧ made.*2 = [2; 3; 4].
Proof.
  destruct (wiring_is_one_chain quiet (mkConfig "prod" true [] None) [] 0
              (mkPipeline (Some 1) (Some [2; 3]) (Some 4)) [SetupReturned]
              eq_refl) as (Hup & Hdown & _).
  split; [exact Hup | exact Hdown].
Defined.

(** When a [pipe] call throws, wiring stops at that call: it is the last
    call made on a stream, no listener is registered, neither hook is ever
    called, and the run is rejected with the exception whatever the
    schedule brings afterwards. *)
Theorem failed_pipe_stops_the_run W config args ctx p sigs e :
  snd (pipe_trace W (adjacent (stages p))) = Some e →
  let r := run_pipeline W config args ctx p sigs in
  promise r = Some (Rejected e)
  ∧ calls r = fst (pipe_trace W (adjacent (stages p))) ++ [Reject e]
  ∧ (∃ a b, last (pipes_in (calls r)) = Some (a, b)
            ∧ pipe_throws W a b = Some e)
  ∧ count is_setup (calls r) = 0
  ∧ count is_teardown (calls r) = 0
  ∧ (∀ s, OnFinish s ∉ calls r).
Proof.
  intros He. cbn zeta.
  destruct (pipe_trace_last W _ e He) as (a & b & Hlast & Hthrow).
  pose proof (pipe_trace_wiring W (adjacent (stages p))) as Hwiring.
  pose proof (pipe_trace_only_pipes W (adjacent (stages p))) as Honly.
  rewrite run_pipes.
  destruct (run_shape W config args ctx p sigs) as (-> & -> & _).
  unfold outcome, expected_calls, wiring_error, wiring_calls.
  destruct (pipe_trace W (adjacent (stages p))) as [t o].
  cbn [fst snd] in *. subst o.
  split; [done |]. split; [done |]. split; [by exists a, b |].
  rewrite !count_app, !(count_wiring _ t) by (done || by intros []).
  split; [done |]. split; [done |].
  intros s. rewrite elem_of_app, list_elem_of_singleton.
  intros [Hin | ?]; [| done].
  by destruct (Honly _ Hin) as (x & y & ?).
Qed.

Lemma failed_pipe_stops_the_run_witness :
  let W := mkStreams (fun a _ => if (a =? 2)%nat then Some (mkError "closed")
                                 else None) (fun _ => None) in
  calls (run_pipeline W (mkConfig "prod" true [] None) [] 0
           (mkPipeline (Some 1) (Some [2; 3]) (Some 4))
           [Finish 4; SetupReturned])
  = [Pipe 1 2; Pipe 2 3; Reject (mkError "closed")].
Proof.
  intros W.
  destruct (failed_pipe_stops_the_run W (mkConfig "prod" true [] None) [] 0
              (mkPipeline (Some 1) (Some [2; 3]) (Some 4))
              [Finish 4; SetupReturned] (mkError "closed") eq_refl)
    as (_ & Hcalls & _).
  exact Hcalls.
Defined.

Lemma first_effective_without_foreign s sigs : ∀ b,
  first_effective b s
    (List.filter (fun sg => negb (foreign_finish (Some s) sg)) sigs)
  = first_effective b s sigs.
Proof.
  induction sigs as [| sg sigs IH]; intros b; [done |].
  destruct sg as [x | | e]; cbn [List.filter foreign_finish negb].
  - destruct (bool_decide (Some s = Some x)) eqn:E; cbn [negb first_effective];
      rewrite E; [done | apply IH].
  - cbn [first_effective]. apply IH.
  - cbn [first_effective]. by rewrite IH.
Qed.

(** Only the stream that carries the listener counts: the 'finish' signals
    of every other stream (the source, an inner transform, a stream that is
    not in the pipeline) can be dropped from the schedule without changing
    the outcome of the run or any call it makes. *)
Theorem other_finish_signals_are_ignored W config args ctx p sigs :
  let heard := List.filter (fun sg => negb (foreign_finish (terminal p) sg)) sigs in
  promise (run_pipeline W config args ctx p heard)
  = promise (run_pipeline W config args ctx p sigs)
  ∧ calls (run_pipeline W config args ctx p heard)
    = calls (run_pipeline W config args ctx p sigs).
Proof.
  cbn zeta.
  destruct (run_shape W config args ctx p sigs) as (-> & -> & _).
  destruct (run_shape W config args ctx p
              (List.filter (fun sg => negb (foreign_finish (terminal p) sg)) sigs))
    as (-> & -> & _).
  unfold outcome, expected_calls.
  destruct (wiring_error W p); [done |].
  destruct (terminal p) as [s |]; [| done].
  by rewrite first_effective_without_foreign.
Qed.

Lemma first_effective_silent s sigs : ∀ b,
  Forall (fun sg => finish_of s sg = false ∧ setup_throws sg = false) sigs →
  first_effective b s sigs = None.
Proof.
  induction sigs as [| sg sigs IH]; intros b Hall; [done |].
  apply Forall_cons in Hall as [[Hf Ht] Hall].
  destruct sg as [x | | e]; cbn in *; [| by apply IH | done].
  rewrite Hf. by apply IH.
Qed.

(** A setup hook that returns does not complete the run: as long as the
    stream that carries the listener has not emitted 'finish' and the setup
    hook has not thrown, the run stays pending, teardown is not called and
    the script's promise stays pending, however many other signals
    arrive. *)
Theorem run_waits_for_finish W config args ctx p s sigs :
  wiring_error W p = None →
  terminal p = Some s →
  Forall (fun sg => finish_of s sg = false ∧ setup_throws sg = false) sigs →
  let r := run_pipeline W config args ctx p sigs in
  promise r = None
  ∧ calls r = wiring_calls W p ++ [CallSetup config args ctx p]
  ∧ count is_teardown (calls r) = 0
  ∧ (∀ factory B a,
       factory config a (fresh_context B) = Normal p →
       streams B = W → signals B = sigs →
       snd (pipes_script factory B config a) = Pending).
Proof.
  intros Hw Ht Hall. cbn zeta.
  pose proof (first_effective_silent s sigs true Hall) as Hnone.
  assert (Hshape : ∀ a c,
    promise (run_pipeline W config a c p sigs) = None
    ∧ calls (run_pipeline W config a c p sigs)
      = wiring_calls W p ++ [CallSetup config a c p]).
  { intros a c. destruct (run_shape W config a c p sigs) as (-> & -> & _).
    unfold outcome, expected_calls. rewrite Hw, Ht, Hnone. cbn.
    by rewrite app_nil_r. }
  destruct (Hshape args ctx) as [-> ->].
  split; [done |]. split; [done |]. split.
  - rewrite count_app, count_wiring_calls; [done |]. by intros [].
  - intros factory B a Hf <- <-. unfold pipes_script. rewrite Hf. cbn [snd].
    by destruct (Hshape a (fresh_context B)) as [-> _].
Qed.

Lemma run_waits_for_finish_witness :
  promise (run_pipeline quiet (mkConfig "prod" true [] None) [] 0
             (mkPipeline (Some 1) (Some [2; 3]) (Some 4))
             [Finish 1; Finish 3; SetupReturned; Finish 2])
  = None.
Proof.
  apply (run_waits_for_finish quiet (mkConfig "prod" true [] None) [] 0
           (mkPipeline (Some 1) (Some [2; 3]) (Some 4)) 4
           [Finish 1; Finish 3; SetupReturned; Finish 2] eq_refl eq_refl).
  repeat constructor.
Defined.

(** A pipeline with no sink and no transform is over before it starts: the
    run is resolved, the setup hook is called and teardown is called right
    after that call, in the first turn, without waiting for the setup hook
    to end and whatever it does later; a source, if there is one, is never
    piped anywhere. *)
Theorem run_without_terminal_is_immediate W config args ctx p sigs :
  sink p = None →
  default [] (transforms p) = [] →
  let r := run_pipeline W config args ctx p sigs in
  promise r = Some Resolved
  ∧ calls r = [Resolve; CallSetup config args ctx p;
               CallTeardown config args ctx p].
Proof.
  intros Hs Ht. cbn zeta.
  destruct (run_shape W config args ctx p sigs) as (-> & -> & _).
  unfold outcome, expected_calls, wiring_error, wiring_calls, terminal, stages.
  rewrite Hs, Ht. by destruct (source p).
Qed.

Lemma run_without_terminal_is_immediate_witness :
  calls (run_pipeline quiet (mkConfig "prod" true [] None) ["a.csv"] 0
           (mkPipeline (Some 1) (Some []) None) [])
  = [Resolve;
     CallSetup (mkConfig "prod" true [] None) ["a.csv"] 0
       (mkPipeline (Some 1) (Some []) None);
     CallTeardown (mkConfig "prod" true [] None) ["a.csv"] 0
       (mkPipeline (Some 1) (Some []) None)].
Proof.
  apply (run_without_terminal_is_immediate quiet (mkConfig "prod" true [] None)
           ["a.csv"] 0 (mkPipeline (Some 1) (Some []) None) []);
    reflexivity.
Defined.

Lemma setup_call_arguments W config args ctx p sigs ev :
  ev ∈ calls (run_pipeline W config args ctx p sigs) →
  is_setup ev = true → ev = CallSetup config args ctx p.
Proof.
  destruct (run_shape W config args ctx p sigs) as (_ & -> & _).
  pose proof (wiring_calls_wiring W p) as Hwiring.
  rewrite Forall_forall in Hwiring.
  assert (Hw : ev ∈ wiring_calls W p → is_setup ev = true → False).
  { intros Hin Hev. specialize (Hwiring ev Hin). by destruct ev. }
  unfold expected_calls. intros Hin Hev.
  destruct (wiring_error W p) as [e |];
    [| destruct (terminal p) as [s |];
       [destruct (first_effective true s sigs) as [[| e] |] |]];
    cbn [late_calls] in Hin;
    repeat (apply elem_of_app in Hin as [Hin | Hin]);
    try (by destruct (Hw Hin Hev));
    repeat (apply elem_of_cons in Hin as [-> | Hin]);
    try done; by apply elem_of_nil in Hin.
Qed.

(** Leaving [transforms] out is the same as giving the empty list: the two
    runs settle alike, make the same [pipe] calls and call teardown as
    often; the hooks still get the pipeline as the factory returned it,
    without a [transforms] field. *)
Theorem missing_transforms_is_empty_list W config args ctx src snk sigs :
  let without := mkPipeline src None snk in
  let empty := mkPipeline src (Some []) snk in
  let r := run_pipeline W config args ctx without sigs in
  let r' := run_pipeline W config args ctx empty sigs in
  promise r = promise r'
  ∧ pipes_in (calls r) = pipes_in (calls r')
  ∧ count is_teardown (calls r) = count is_teardown (calls r')
  ∧ (∀ ev, ev ∈ calls r → is_setup ev = true →
           ev = CallSetup config args ctx without).
Proof.
  cbn zeta. rewrite !run_pipes.
  destruct (run_shape W config args ctx (mkPipeline src None snk) sigs)
    as (-> & -> & _).
  destruct (run_shape W config args ctx (mkPipeline src (Some []) snk) sigs)
    as (-> & -> & _).
  split; [done |]. split; [done |].
  unfold expected_calls.
  change (wiring_error W (mkPipeline src (Some []) snk))
    with (wiring_error W (mkPipeline src None snk)).
  change (terminal (mkPipeline src (Some []) snk))
    with (terminal (mkPipeline src None snk)).
  change (wiring_calls W (mkPipeline src (Some []) snk))
    with (wiring_calls W (mkPipeline src None snk)).
  split.
  - assert (count is_teardown (wiring_calls W (mkPipeline src None snk)) = 0)
      as Hcount by (apply count_wiring_calls; by intros []).
    destruct (wiring_error W (mkPipeline src None snk)) as [e |];
      [by rewrite !count_app, Hcount |].
    destruct (terminal (mkPipeline src None snk)) as [s |];
      [| by rewrite !count_app, Hcount].
    by destruct (first_effective true s sigs) as [[| e] |];
      rewrite !count_app, Hcount.
  - intros ev Hin Hev. apply (setup_call_arguments W _ _ _ _ sigs).
    + destruct (run_shape W config args ctx (mkPipeline src None snk) sigs)
        as (_ & -> & _). exact Hin.
    + exact Hev.
Qed.

Lemma missing_transforms_is_empty_list_witness :
  promise (run_pipeline quiet (mkConfig "prod" true [] None) [] 0
             (mkPipeline (Some 1) None (Some 4)) [Finish 4])
  = promise (run_pipeline quiet (mkConfig "prod" true [] None) [] 0
               (mkPipeline (Some 1) (Some []) (Some 4)) [Finish 4])
  ∧ CallSetup (mkConfig "prod" true [] None) [] 0
      (mkPipeline (Some 1) None (Some 4))
    ∈ calls (run_pipeline quiet (mkConfig "prod" true [] None) [] 0
               (mkPipeline (Some 1) None (Some 4)) [Finish 4]).
Proof.
  destruct (missing_transforms_is_empty_list quiet
              (mkConfig "prod" true [] None) [] 0 (Some 1) (Some 4) [Finish 4])
    as (Hp & _ & _ & Hsetup).
  split; [exact Hp |].
  assert (Hin : CallSetup (mkConfig "prod" true [] None) [] 0
                  (mkPipeline (Some 1) None (Some 4))
                ∈ calls (run_pipeline quiet (mkConfig "prod" true [] None) [] 0
                           (mkPipeline (Some 1) None (Some 4)) [Finish 4])).
  { vm_compute. do 2 apply list_elem_of_further. apply list_elem_of_here. }
  pose proof (Hsetup _ Hin eq_refl) as Heq. exact Hin.
Defined.

Lemma run_prints_nothing W config args ctx p sigs e :
  ConsoleErrorValue e ∉ calls (run_pipeline W config args ctx p sigs).
Proof.
  destruct (run_shape W config args ctx p sigs) as (_ & -> & _).
  pose proof (wiring_calls_wiring W p) as Hwiring.
  rewrite Forall_forall in Hwiring.
  assert (Hw : ConsoleErrorValue e ∉ wiring_calls W p)
    by (intros Hin; by specialize (Hwiring _ Hin)).
  unfold expected_calls. intros Hin.
  destruct (wiring_error W p) as [e' |];
    [| destruct (terminal p) as [s |];
       [destruct (first_effective true s sigs) as [[| e'] |] |]];
    cbn [late_calls] in Hin;
    repeat (apply elem_of_app in Hin as [Hin | Hin]);
    try (by destruct (Hw Hin));
    repeat (apply elem_of_cons in Hin as [[=] | Hin]);
    by apply elem_of_nil in Hin.
Qed.

Lemma pipes_script_fate factory B config args :
  snd (pipes_script factory B config args)
  = match factory config args (fresh_context B) with
    | Thrown e => RejectedWith e
    | Normal p =>
        script_fate (outcome (streams B) p (signals B)) (teardown_fate B)
    end.
Proof.
  unfold pipes_script.
  destruct (factory config args (fresh_context B)) as [p | e]; [| done].
  cbn [snd].
  by destruct (run_shape (streams B) config args (fresh_context B) p (signals B))
    as (-> & _).
Qed.

Lemma pipes_script_prints_nothing factory B config args e :
  ConsoleErrorValue e ∉ fst (pipes_script factory B config args).
Proof.
  unfold pipes_script.
  destruct (factory config args (fresh_context B)) as [p | e']; cbn [fst].
  - rewrite elem_of_cons. intros [[=] | Hin].
    by apply run_prints_nothing in Hin.
  - rewrite list_elem_of_singleton. done.
Qed.

(** With accepted arguments, [runPipes] prints an error in three cases and
    no other: the factory rejects, the run is rejected (by wiring or by the
    setup hook), or the run is resolved and teardown rejects.  A run that
    never settles prints nothing, and [runPipes] itself returns normally in
    every case. *)
Theorem runPipes_prints_each_failure factory B d v proc opt e :
  Reading.accepts v opt = true →
  ∃ stage,
    Script.opt_stage opt = Some stage
    ∧ Script.completion (runPipes factory B d v proc opt) = Script.Returned
    ∧ (ConsoleErrorValue e ∈ Script.trace (runPipes factory B d v proc opt)
       ↔ let c := mkConfig stage (Script.parse_dryRun (Script.opt_dryRun opt))
                    (Script.opt_argv opt) (Script.env proc !! "PWD") in
         match factory c (Script.opt_argv opt) (fresh_context B) with
         | Thrown e' => e' = e
         | Normal p =>
             outcome (streams B) p (signals B) = Some (Rejected e)
             ∨ (outcome (streams B) p (signals B) = Some Resolved
                ∧ teardown_fate B = RejectedWith e)
         end).
Proof.
  intros Hacc.
  destruct (ScriptLaws.accepted_profile v opt Hacc)
    as (stage & profile & Hs & Hp & _).
  exists stage. split; [done |]. unfold runPipes.
  rewrite (ScriptLaws.runScript_accepted _ d v proc opt stage profile Hs Hp Hacc).
  cbn zeta. rewrite lookup_insert_ne by done.
  set (c := mkConfig stage _ _ _). split; [done |]. cbn [Script.trace].
  rewrite !elem_of_app, !elem_of_cons, elem_of_nil.
  pose proof (pipes_script_prints_nothing factory B c (Script.opt_argv opt) e)
    as Hquiet.
  rewrite pipes_script_fate.
  destruct (factory c (Script.opt_argv opt) (fresh_context B)) as [p | e'].
  - destruct (outcome (streams B) p (signals B)) as [[| e'] |];
      cbn [script_fate].
    + destruct (teardown_fate B) as [| e' |]; cbn [report];
        rewrite ?list_elem_of_singleton, ?elem_of_nil; split;
        intros H; intuition congruence.
    + cbn [report]. rewrite list_elem_of_singleton. split;
        intros H; intuition congruence.
    + cbn [report]. rewrite elem_of_nil. split;
        intros H; intuition congruence.
  - cbn [report]. rewrite list_elem_of_singleton. split;
      intros H; intuition congruence.
Qed.

Lemma runPipes_prints_each_failure_witness :
  ConsoleErrorValue (mkError "flush failed")
  ∈ Script.trace
      (runPipes (fun _ _ _ => Normal (mkPipeline (Some 1) None (Some 4)))
         (mkBehaviour quiet 0 [SetupReturned; Finish 4]
            (RejectedWith (mkError "flush failed")))
         "" Script.noValidation (Script.mkProcess "node" "job.js" ∅)
         (Script.mkOptions (Some "staging") None [])).
Proof.
  destruct (runPipes_prints_each_failure
              (fun _ _ _ => Normal (mkPipeline (Some 1) None (Some 4)))
              (mkBehaviour quiet 0 [SetupReturned; Finish 4]
                 (RejectedWith (mkError "flush failed")))
              "" Script.noValidation (Script.mkProcess "node" "job.js" ∅)
              (Script.mkOptions (Some "staging") None [])
              (mkError "flush failed") eq_refl)
    as (stage & _ & _ & Hiff).
  apply Hiff. right. split; reflexivity.
Defined.

(** Teardown is never called on its own: whenever it is called, the setup
    hook was called earlier in the same run, with the same config,
    arguments, context and pipeline, and teardown is the last call of the
    run. *)
Theorem teardown_follows_setup W config args ctx p sigs ev :
  ev ∈ calls (run_pipeline W config args ctx p sigs) →
  is_teardown ev = true →
  ev = CallTeardown config args ctx p
  ∧ ∃ pre mid,
      calls (run_pipeline W config args ctx p sigs)
      = pre ++ CallSetup config args ctx p :: mid
            ++ [CallTeardown config args ctx p].
Proof.
  destruct (run_shape W config args ctx p sigs) as (_ & -> & _).
  pose proof (wiring_calls_wiring W p) as Hwiring.
  rewrite Forall_forall in Hwiring.
  assert (Hw : ev ∈ wiring_calls W p → is_teardown ev = true → False).
  { intros Hin Hev. specialize (Hwiring ev Hin). by destruct ev. }
  unfold expected_calls. intros Hin Hev.
  destruct (wiring_error W p) as [e |];
    [| destruct (terminal p) as [s |];
       [destruct (first_effective true s sigs) as [[| e] |] |]];
    cbn [late_calls] in *;
    repeat (apply elem_of_app in Hin as [Hin | Hin]);
    try (by destruct (Hw Hin Hev));
    repeat (apply elem_of_cons in Hin as [-> | Hin]);
    try done; try (by apply elem_of_nil in Hin).
  - split; [done |]. exists (wiring_calls W p), [Resolve].
    by rewrite <- !app_assoc.
  - split; [done |]. exists (wiring_calls W p ++ [Resolve]), [].
    by rewrite <- !app_assoc.
Qed.

Lemma teardown_follows_setup_witness :
  ∃ pre mid,
    calls (run_pipeline quiet (mkConfig "prod" true [] None) [] 0
             (mkPipeline (Some 1) None (Some 4)) [Finish 4])
    = pre ++ CallSetup (mkConfig "prod" true [] None) [] 0
               (mkPipeline (Some 1) None (Some 4)) :: mid
          ++ [CallTeardown (mkConfig "prod" true [] None) [] 0
                (mkPipeline (Some 1) None (Some 4))].
Proof.
  apply (teardown_follows_setup quiet (mkConfig "prod" true [] None) [] 0
           (mkPipeline (Some 1) None (Some 4)) [Finish 4]
           (CallTeardown (mkConfig "prod" true [] None) [] 0
              (mkPipeline (Some 1) None (Some 4)))); [| reflexivity].
  vm_compute. do 4 apply list_elem_of_further. apply list_elem_of_here.
Defined.

End PipesLaws.
